(** * allusersync: materialising Gerrit accounts into an All-Users repository

    A shallow embedding of [main.go] ([main], [getAccountDetails],
    [UpdateRepo], [saveAccountDetails]) and of the
    [gitutil] helpers ([SaveBlob], [SaveConfig], [SaveTree], [SaveCommit]),
    over an in-memory model of the go-git storer. *)

From Stdlib Require Import ZArith Ascii String List Sorting.Sorted.
From stdpp Require Import base decidable countable gmap strings pretty list sorting fin_maps.

Local Open Scope string_scope.
Local Open Scope list_scope.
Local Open Scope Z_scope.

(** ** crypto/sha1 on byte strings

    [sha1.Sum] works on 32-bit words; they are carried as [Z] and every
    addition, rotation and complement is reduced modulo [2^32]. *)
Module SHA1.

Definition w32 (x : Z) : Z := x mod 2 ^ 32.
Definition add32 (x y : Z) : Z := w32 (x + y).
Definition not32 (x : Z) : Z := 2 ^ 32 - 1 - x.
Definition rotl (n x : Z) : Z :=
  Z.lor (w32 (Z.shiftl x n)) (Z.shiftr x (32 - n)).

Definition bytes_of_string (s : string) : list Z :=
  map (fun c => Z.of_N (N_of_ascii c)) (list_ascii_of_string s).

(** big-endian encoding of [x] on [n] bytes *)
Fixpoint be_bytes (n : nat) (x : Z) : list Z :=
  match n with
  | O => []
  | S n' => Z.shiftr x (8 * Z.of_nat n') mod 256 :: be_bytes n' x
  end.

Definition pad (msg : list Z) : list Z :=
  let len := Z.of_nat (length msg) in
  let zeros := Z.to_nat ((55 - len) mod 64) in
  msg ++ 128 :: repeat 0 zeros ++ be_bytes 8 (8 * len).

Fixpoint be_words (n : nat) (bs : list Z) : list Z :=
  match n, bs with
  | S n', b0 :: b1 :: b2 :: b3 :: rest =>
      (Z.shiftl b0 24 + Z.shiftl b1 16 + Z.shiftl b2 8 + b3) :: be_words n' rest
  | _, _ => []
  end.

(** the message schedule, kept newest word first *)
Fixpoint schedule (n : nat) (rw : list Z) : list Z :=
  match n with
  | O => rw
  | S n' =>
      let w := rotl 1 (Z.lxor (Z.lxor (nth 2 rw 0) (nth 7 rw 0))
                              (Z.lxor (nth 13 rw 0) (nth 15 rw 0))) in
      schedule n' (w :: rw)
  end.

Definition round_f (t : nat) (b c d : Z) : Z :=
  if (t <? 20)%nat then Z.lor (Z.land b c) (Z.land (not32 b) d)
  else if (t <? 40)%nat then Z.lxor (Z.lxor b c) d
  else if (t <? 60)%nat then Z.lor (Z.lor (Z.land b c) (Z.land b d)) (Z.land c d)
  else Z.lxor (Z.lxor b c) d.

Definition round_k (t : nat) : Z :=
  if (t <? 20)%nat then 0x5A827999
  else if (t <? 40)%nat then 0x6ED9EBA1
  else if (t <? 60)%nat then 0x8F1BBCDC
  else 0xCA62C1D6.

Definition state : Type := Z * Z * Z * Z * Z.

Fixpoint rounds (t : nat) (ws : list Z) (st : state) : state :=
  match ws with
  | [] => st
  | w :: ws' =>
      let '(a, b, c, d, e) := st in
      let tmp := add32 (add32 (add32 (add32 (rotl 5 a) (round_f t b c d)) e) (round_k t)) w in
      rounds (S t) ws' (tmp, a, rotl 30 b, c, d)
  end.

Definition block (st : state) (bs : list Z) : state :=
  let ws := rev (schedule 64 (rev (be_words 16 bs))) in
  let '(h0, h1, h2, h3, h4) := st in
  let '(a, b, c, d, e) := rounds 0 ws st in
  (add32 h0 a, add32 h1 b, add32 h2 c, add32 h3 d, add32 h4 e).

Fixpoint blocks (n : nat) (st : state) (bs : list Z) : state :=
  match n with
  | O => st
  | S n' => blocks n' (block st (firstn 64 bs)) (skipn 64 bs)
  end.

Definition init : state :=
  (0x67452301, 0xEFCDAB89, 0x98BADCFE, 0x10325476, 0xC3D2E1F0).

(** [sha1.Sum]: the 20 digest bytes *)
Definition Sum (msg : list Z) : list Z :=
  let p := pad msg in
  let '(h0, h1, h2, h3, h4) := blocks (length p / 64)%nat init p in
  be_bytes 4 h0 ++ be_bytes 4 h1 ++ be_bytes 4 h2 ++ be_bytes 4 h3 ++ be_bytes 4 h4.

Definition hex_digit (x : Z) : ascii :=
  if (x <? 10)%Z then ascii_of_N (Z.to_N (48 + x)) else ascii_of_N (Z.to_N (87 + x)).

(** [fmt.Sprintf("%x", digest)] *)
Definition hex (bs : list Z) : string :=
  string_of_list_ascii (flat_map (fun b => [hex_digit (b / 16); hex_digit (b mod 16)]) bs).

End SHA1.

Definition sha1_hex (s : string) : string := SHA1.hex (SHA1.Sum (SHA1.bytes_of_string s)).


(** ** go-git's object model

    [plumbing.Hash] is the SHA-1 of an object's canonical encoding. Hashes are
    carried as unbounded naturals, so that a collision-free hash function
    exists; [ZeroHash] is the all-zero hash. *)
Abbreviation Hash := N (only parsing).
Definition ZeroHash : Hash := 0%N.

(** [filemode.FileMode] *)
Inductive FileMode :=
  Empty | Dir | Regular | Deprecated | Executable | Symlink | Submodule.

(** [object.TreeEntry] *)
Record TreeEntry := {
  entryName : string;
  entryMode : FileMode;
  entryHash : Hash;
}.

(** [object.Tree]: the hash it was read under and its entries; the zero value
    has no entries. *)
Record Tree := {
  treeHash : Hash;
  Entries : list TreeEntry;
}.

(** [object.Signature]; [When] in seconds *)
Record Signature := {
  sigName : string;
  sigEmail : string;
  When : Z;
}.

(** [object.Commit]. [commitHash] is filled in when a commit is read from the
    store and is not part of the encoding. *)
Record Commit := {
  commitHash : Hash;
  Author : Signature;
  Committer : Signature;
  Message : string;
  TreeHash : Hash;
  ParentHashes : list Hash;
}.

(** An encoded object, as [SetEncodedObject] receives it: its
    [plumbing.ObjectType] and its content. *)
Inductive Obj :=
| BlobObject (data : string)
| TreeObject (entries : list TreeEntry)
| CommitObject (author committer : Signature) (message : string)
               (tree : Hash) (parents : list Hash).

#[global] Instance FileMode_eq_dec : EqDecision FileMode.
Proof. solve_decision. Defined.
#[global] Instance TreeEntry_eq_dec : EqDecision TreeEntry.
Proof. solve_decision. Defined.
#[global] Instance Signature_eq_dec : EqDecision Signature.
Proof. solve_decision. Defined.
#[global] Instance Obj_eq_dec : EqDecision Obj.
Proof. solve_decision. Defined.

(** [Tree.Encode] and [Commit.Encode] *)
Definition Tree_Encode (t : Tree) : Obj := TreeObject (Entries t).
Definition Commit_Encode (c : Commit) : Obj :=
  CommitObject (Author c) (Committer c) (Message c) (TreeHash c) (ParentHashes c).

(** ** go-git's [config.Config]

    A configuration is only ever built by [SetOption] calls on a fresh value
    and then encoded; it is carried as the sequence of those calls. *)
Record ConfigOption := {
  optSection : string;
  optSubsection : string;
  optKey : string;
  optValue : string;
}.

Definition Config : Type := list ConfigOption.

Definition SetOption (section subsection key value : string) (cfg : Config) : Config :=
  cfg ++ [ {| optSection := section; optSubsection := subsection;
              optKey := key; optValue := value |} ].

(** ** The reference transaction of [main.go] *)
Record RefUpdate := { NewID : Hash }.

(** [updates] maps a reference name to a [*RefUpdate]; [None] is the nil
    pointer, a deletion. *)
Record RefTransaction := {
  updates : gmap string (option RefUpdate);
}.

#[global] Instance RefUpdate_eq_dec : EqDecision RefUpdate.
Proof. solve_decision. Defined.

(** ** What the program takes from the Go runtime and from go-git

    - [hashObj]: the hash go-git gives an encoded object;
    - [range_order]: the order in which [range] visits a map, which Go leaves
      unspecified: some enumeration of the map's entries;
    - [encodeConfig]: the text go-git's [config.Encoder] writes. *)
Class Platform := {
  hashObj : Obj -> Hash;
  range_order : gmap string (option RefUpdate) -> list (string * option RefUpdate);
  range_order_perm : forall m, range_order m ≡ₚ map_to_list m;
  encodeConfig : Config -> string;
}.

(** ** The storer

    [objects] is the object database, [refs] the hash references. Every
    storer call may fail: [faults] scripts the outcome of the calls to come,
    one entry per call, [true] for an I/O failure; calls beyond the script
    succeed. A failed call changes nothing but the script. *)
Record Storer := {
  objects : gmap N Obj;
  refs : gmap string N;
  faults : list bool;
}.

Definition with_objects (o : gmap N Obj) (st : Storer) : Storer :=
  {| objects := o; refs := refs st; faults := faults st |}.
Definition with_refs (r : gmap string N) (st : Storer) : Storer :=
  {| objects := objects st; refs := r; faults := faults st |}.
Definition with_faults (f : list bool) (st : Storer) : Storer :=
  {| objects := objects st; refs := refs st; faults := f |}.

Inductive StorerOp :=
  OpSetEncodedObject | OpEncodedObject | OpSetReference | OpReference | OpRemoveReference.

(** The errors the program can see: the two sentinels of [plumbing], an
    I/O failure of a storer call, an error of the Gerrit client, and the
    violation of a precondition that the tree patcher reports. *)
Inductive error :=
| ErrReferenceNotFound
| ErrObjectNotFound
| ErrIO (op : StorerOp)
| ErrRemote (msg : string)
| PreconditionViolation.

#[global] Instance StorerOp_eq_dec : EqDecision StorerOp.
Proof. solve_decision. Defined.
#[global] Instance error_eq_dec : EqDecision error.
Proof. solve_decision. Defined.

Inductive result (A : Type) :=
| Ok (a : A)
| Err (e : error).
Arguments Ok {A} a.
Arguments Err {A} e.

(** Storer computations: the error and the store both come back. *)
Definition M (A : Type) : Type := Storer -> result A * Storer.

Definition ret {A} (a : A) : M A := fun st => (Ok a, st).
Definition fail {A} (e : error) : M A := fun st => (Err e, st).
Definition bind {A B} (m : M A) (k : A -> M B) : M B := fun st =>
  match m st with
  | (Ok a, st') => k a st'
  | (Err e, st') => (Err e, st')
  end.

Declare Scope storer_scope.
Delimit Scope storer_scope with storer.
Notation "x <- m ;; k" := (bind m (fun x => k))
  (at level 100, m at next level, right associativity) : storer_scope.
Local Open Scope storer_scope.

Definition storer_call {A} (op : StorerOp) (body : M A) : M A := fun st =>
  match faults st with
  | true :: fs => (Err (ErrIO op), with_faults fs st)
  | false :: fs => body (with_faults fs st)
  | [] => body st
  end.

Section Program.
Context `{Platform}.

(** [storer.EncodedObjectStorer] *)
Definition SetEncodedObject (o : Obj) : M Hash :=
  storer_call OpSetEncodedObject (fun st =>
    (Ok (hashObj o), with_objects (<[hashObj o := o]> (objects st)) st)).

Definition EncodedObject (h : Hash) : M Obj :=
  storer_call OpEncodedObject (fun st =>
    match objects st !! h with
    | Some o => (Ok o, st)
    | None => (Err ErrObjectNotFound, st)
    end).

(** [storer.ReferenceStorer] *)
Definition SetReference (name : string) (h : Hash) : M unit :=
  storer_call OpSetReference (fun st =>
    (Ok tt, with_refs (<[name := h]> (refs st)) st)).

Definition RemoveReference (name : string) : M unit :=
  storer_call OpRemoveReference (fun st =>
    (Ok tt, with_refs (delete name (refs st)) st)).

(** [repo.Reference(name, true)] *)
Definition Reference (name : string) : M Hash :=
  storer_call OpReference (fun st =>
    match refs st !! name with
    | Some h => (Ok h, st)
    | None => (Err ErrReferenceNotFound, st)
    end).

(** [repo.CommitObject] and [repo.TreeObject]: an object of another type
    under the hash is not found. *)
Definition Repository_CommitObject (h : Hash) : M Commit :=
  o <- EncodedObject h ;;
  match o with
  | CommitObject a c m t ps =>
      ret {| commitHash := h; Author := a; Committer := c; Message := m;
             TreeHash := t; ParentHashes := ps |}
  | _ => fail ErrObjectNotFound
  end.

Definition Repository_TreeObject (h : Hash) : M Tree :=
  o <- EncodedObject h ;;
  match o with
  | TreeObject es => ret {| treeHash := h; Entries := es |}
  | _ => fail ErrObjectNotFound
  end.

(** ** gitutil

    [NewEncodedObject] gives an object in memory: writing and encoding into
    it do not fail, so each save has one point of failure, the storer call
    that ends it. *)

Definition SaveBlob (data : string) : M Hash :=
  SetEncodedObject (BlobObject data).

Definition SaveConfig (cfg : Config) : M Hash :=
  SaveBlob (encodeConfig cfg).

Definition SaveCommit (c : Commit) : M Hash :=
  SetEncodedObject (Commit_Encode c).

End Program.

(** The canonical order of tree entries: byte-wise on the names, which is
    what Go's [<] on strings and [String.compare] both are. *)
Definition name_le (e1 e2 : TreeEntry) : Prop :=
  String.leb (entryName e1) (entryName e2) = true.

#[global] Instance name_le_dec : RelDecision name_le.
Proof. intros e1 e2. unfold name_le. apply _. Defined.

(** Modelled from the spec: [gitutil.SortTreeEntries], which [SaveTree]
    calls and which is not among the sources. The spec has a tree's entries
    sorted by the byte-wise order of their names. *)
Definition SortTreeEntries (entries : list TreeEntry) : list TreeEntry :=
  merge_sort name_le entries.

(** A deletion is an entry with the zero hash, as [TestMapToEntries] builds
    it for a key ending in [!]. *)
Definition is_delete (u : TreeEntry) : bool := bool_decide (entryHash u = ZeroHash).

Definition upsert (u : TreeEntry) : list TreeEntry :=
  if is_delete u then [] else [u].

(** Modelled from the spec: the merge-join of [gitutil.PatchTree], which is
    not among the sources. Both sequences are walked in step: a name only in
    the base is kept, a name only in the updates is inserted unless it is a
    deletion, and on a name in both the update wins. *)
Fixpoint merge_join (base : list TreeEntry) : list TreeEntry -> list TreeEntry :=
  fix go (upd : list TreeEntry) : list TreeEntry :=
    match base, upd with
    | [], _ => flat_map upsert upd
    | _, [] => base
    | b :: base', u :: upd' =>
        match String.compare (entryName b) (entryName u) with
        | Lt => b :: merge_join base' upd
        | Eq => upsert u ++ merge_join base' upd'
        | Gt => upsert u ++ go upd'
        end
    end.

(** ** The Gerrit records of [main.go] *)
Record AccountDetailInfo := {
  AccountID : Z;
  Name : string;
  Email : string;
}.

Record AccountExternalIdInfo := {
  Identity : string;
  EmailAddress : string;
}.

Record AccountInfo := {
  account : AccountDetailInfo;
  extIDs : list AccountExternalIdInfo;
}.

(** [fmt.Sprintf] with [%02d]: the decimal text, padded with a zero up to
    width two. *)
Definition Sprintf_02d (x : Z) : string :=
  let s := pretty x in
  if (String.length s <? 2)%nat then "0" +:+ s else s.

(** [fmt.Sprintf("refs/users/%02d/%d", id%100, id)]; Go's [%] truncates. *)
Definition uidRefNameOf (id : Z) : string :=
  "refs/users/" +:+ Sprintf_02d (Z.rem id 100) +:+ "/" +:+ pretty id.

Definition uidRefName (inf : AccountInfo) : string :=
  uidRefNameOf (AccountID (account inf)).

Definition extRefName : string := "refs/meta/external-ids".

Definition newSig (now : Z) : Signature :=
  {| sigName := "allusersync"; sigEmail := "allusersync@invalid"; When := now |}.

Definition accountConfig (inf : AccountInfo) : Config :=
  SetOption "account" "" "preferredEmail" (Email (account inf))
    (SetOption "account" "" "fullName" (Name (account inf)) []).

Definition extIDConfig (accountID : Z) (e : AccountExternalIdInfo) : Config :=
  let cfg := SetOption "externalId" (Identity e) "accountId" (pretty accountID) [] in
  if decide (EmailAddress e = "") then cfg
  else SetOption "externalId" (Identity e) "email" (EmailAddress e) cfg.

Definition extIDEntry (e : AccountExternalIdInfo) (id : Hash) : TreeEntry :=
  {| entryName := sha1_hex (Identity e); entryMode := Regular; entryHash := id |}.

Definition setUpdate (name : string) (id : Hash) (trans : RefTransaction) : RefTransaction :=
  {| updates := <[name := Some {| NewID := id |}]> (updates trans) |}.

Section Sync.
Context `{Platform}.

(** [gitutil.SaveTree]: sort, encode, store. *)
Definition SaveTree (entries : list TreeEntry) : M Hash :=
  let entries := SortTreeEntries entries in
  SetEncodedObject (Tree_Encode {| treeHash := ZeroHash; Entries := entries |}).

(** Modelled from the spec: [gitutil.PatchTree], which is not among the
    sources. It fails fast on a batch of updates that is not sorted by
    name, and otherwise persists the merge-join of the base tree's entries
    and the updates through the tree store. *)
Definition PatchTree (base : Tree) (upd : list TreeEntry) : M Hash :=
  if decide (Sorted name_le upd) then SaveTree (merge_join (Entries base) upd)
  else fail PreconditionViolation.

(** [UpdateRepo], over the entries in the order [range] yields them. The
    result of [RemoveReference] is dropped. *)
Fixpoint UpdateRepo_range (l : list (string * option RefUpdate)) : M unit :=
  match l with
  | [] => ret tt
  | (name, None) :: rest =>
      fun st => UpdateRepo_range rest (snd (RemoveReference name st))
  | (name, Some update) :: rest =>
      _ <- SetReference name (NewID update) ;;
      UpdateRepo_range rest
  end.

Definition UpdateRepo (tr : RefTransaction) : M unit :=
  UpdateRepo_range (range_order (updates tr)).

(** [repo.Reference] followed by [repo.CommitObject] (lines 101-115 and
    147-160): a reference that is not found is no error and gives no commit. *)
Definition referenceCommit (name : string) : M (option Commit) := fun st =>
  match Reference name st with
  | (Err ErrReferenceNotFound, st') => (Ok None, st')
  | (Err e, st') => (Err e, st')
  | (Ok h, st') =>
      (c <- Repository_CommitObject h ;; ret (Some c)) st'
  end.

(** The loop over [inf.extIDs] (lines 186-204). *)
Fixpoint saveExtIDs (accountID : Z) (es : list AccountExternalIdInfo)
    (newEntries : list TreeEntry) : M (list TreeEntry) :=
  match es with
  | [] => ret newEntries
  | e :: rest =>
      id <- SaveConfig (extIDConfig accountID e) ;;
      saveExtIDs accountID rest (newEntries ++ [extIDEntry e id])
  end.

(** What that loop appends for an account: per identity, an entry named by
    the SHA-1 of the identity that points at the blob of its configuration. *)
Definition extIDEntries (inf : AccountInfo) : list TreeEntry :=
  map (fun e => extIDEntry e
         (hashObj (BlobObject (encodeConfig (extIDConfig (AccountID (account inf)) e)))))
      (extIDs inf).

(** The objects of an account: the blob of its configuration, the tree
    with that blob as [account.config], and the commit on that tree. *)
Definition accountBlob (inf : AccountInfo) : Obj :=
  BlobObject (encodeConfig (accountConfig inf)).

Definition accountTree (inf : AccountInfo) : Obj :=
  TreeObject [ {| entryName := "account.config"; entryMode := Regular;
                  entryHash := hashObj (accountBlob inf) |} ].

Definition accountCommit (s : Signature) (inf : AccountInfo) (parents : list Hash) : Obj :=
  CommitObject s s "update account" (hashObj (accountTree inf)) parents.

Definition is_commit (o : Obj) : bool :=
  match o with CommitObject _ _ _ _ _ => true | _ => false end.

(** Every commit of [st1] was already in [st]. *)
Definition no_new_commits (st st1 : Storer) : Prop :=
  forall h o, is_commit o = true -> objects st1 !! h = Some o -> objects st !! h = Some o.

(** The ledger commit on the tree [tree]. *)
Definition ledgerCommit (s : Signature) (tree : Hash) (parents : list Hash) : Obj :=
  CommitObject s s "update external IDs" tree parents.

(** One turn of the loop over [infos] (lines 124-204). [continue] leaves the
    entries and the transaction as they are. *)
Definition saveAccount (s : Signature) (inf : AccountInfo)
    (acc : list TreeEntry * RefTransaction) : M (list TreeEntry * RefTransaction) :=
  id <- SaveConfig (accountConfig inf) ;;
  id <- SaveTree [ {| entryName := "account.config"; entryMode := Regular; entryHash := id |} ] ;;
  let uidRefName := uidRefNameOf (AccountID (account inf)) in
  oldUserCommit <- referenceCommit uidRefName ;;
  let uidCommit (parents : list Hash) :=
    {| commitHash := ZeroHash; Author := s; Committer := s;
       Message := "update account"; TreeHash := id; ParentHashes := parents |} in
  let finish (c : Commit) : M (list TreeEntry * RefTransaction) :=
    id <- SaveCommit c ;;
    newEntries <- saveExtIDs (AccountID (account inf)) (extIDs inf) (fst acc) ;;
    ret (newEntries, setUpdate uidRefName id (snd acc)) in
  match oldUserCommit with
  | Some old =>
      if decide (TreeHash old = id) then ret acc
      else finish (uidCommit [commitHash old])
  | None => finish (uidCommit [])
  end.

Fixpoint saveAccounts (s : Signature) (infos : list AccountInfo)
    (acc : list TreeEntry * RefTransaction) : M (list TreeEntry * RefTransaction) :=
  match infos with
  | [] => ret acc
  | inf :: rest => acc' <- saveAccount s inf acc ;; saveAccounts s rest acc'
  end.

(** Lines 207-237: patch the ledger tree, save the ledger commit, decide on
    the ledger reference. *)
Definition saveExtCommit (s : Signature) (extCommit : option Commit)
    (acc : list TreeEntry * RefTransaction) : M RefTransaction :=
  prevExtIDTree <-
    match extCommit with
    | Some c => Repository_TreeObject (TreeHash c)
    | None => ret {| treeHash := ZeroHash; Entries := [] |}
    end ;;
  id <- PatchTree prevExtIDTree (fst acc) ;;
  let newExtCommit :=
    {| commitHash := ZeroHash; Author := s; Committer := s;
       Message := "update external IDs"; TreeHash := id;
       ParentHashes := match extCommit with Some c => [commitHash c] | None => [] end |} in
  cid <- SaveCommit newExtCommit ;;
  match extCommit with
  | Some c =>
      if decide (TreeHash c = TreeHash newExtCommit) then ret (snd acc)
      else ret (setUpdate extRefName cid (snd acc))
  | None => ret (setUpdate extRefName cid (snd acc))
  end.

(** Everything of [saveAccountDetails] before its last line. *)
Definition buildTransaction (now : Z) (infos : list AccountInfo) : M RefTransaction :=
  let s := newSig now in
  extCommit <- referenceCommit extRefName ;;
  acc <- saveAccounts s infos ([], {| updates := ∅ |}) ;;
  saveExtCommit s extCommit acc.

(** [saveAccountDetails]; [now] is what [time.Now] returns in [newSig]. *)
Definition saveAccountDetails (now : Z) (infos : list AccountInfo) : M unit :=
  trans <- buildTransaction now infos ;;
  UpdateRepo trans.

(** The test of lines 170-173, on references [rs] and objects [os]: the
    account's reference leads to a commit on the account's tree. *)
Definition unchanged (rs : gmap string Hash) (os : gmap Hash Obj) (inf : AccountInfo) : bool :=
  match rs !! uidRefName inf with
  | Some h =>
      match os !! h with
      | Some (CommitObject _ _ _ t _) => bool_decide (t = hashObj (accountTree inf))
      | _ => false
      end
  | None => false
  end.

(** The entries of the accounts that pass that test, account after account
    in the order of [infos] and identity after identity in the order
    fetched. *)
Definition batch (rs : gmap string Hash) (os : gmap Hash Obj) (infos : list AccountInfo)
    : list TreeEntry :=
  flat_map (fun inf => if unchanged rs os inf then [] else extIDEntries inf) infos.

End Sync.

(** ** Fetching and [main] *)

Record Response := { StatusCode : Z }.

(** The two calls of [gerrit.Client] the program makes; each returns Go's
    triple of value, reply and error, any of which may be nil. *)
Record Client := {
  GetAccountDetails :
    string -> option AccountDetailInfo * option Response * option error;
  GetAccountExternalIDs :
    string -> list AccountExternalIdInfo * option Response * option error;
}.

(** [getAccountDetails] returns Go's pair of a [*AccountInfo] and an error;
    the outer [None] is the panic of dereferencing nil details. The rate
    limiter only delays and is left out. *)
Definition getAccountDetails (cl : Client) (id : string)
    : option (option AccountInfo * option error) :=
  let '(details, reply, err) := GetAccountDetails cl id in
  if match reply with Some r => StatusCode r =? 404 | None => false end
  then Some (None, None)
  else match err with
  | Some e => Some (None, Some e)
  | None =>
      let '(ids, _, err) := GetAccountExternalIDs cl id in
      match err with
      | Some e => Some (None, Some e)
      | None =>
          match details with
          | Some d => Some (Some {| account := d; extIDs := ids |}, None)
          | None => None
          end
      end
  end.

(** How the process ends: [log.Fatal] of an error or of a text, the exit
    with status 0 after [nothing to do.], the return from [main], or a
    panic of the runtime. *)
Inductive Exit :=
| Fatal (e : error)
| FatalMsg (msg : string)
| NothingToDo
| Finished
| Panic.

(** The loop of lines 291-303: [inl] when the process ends inside it. *)
Fixpoint fetchAccounts (cl : Client) (ids : list string) (infos : list AccountInfo)
    : Exit + list AccountInfo :=
  match ids with
  | [] => inr infos
  | id :: rest =>
      match getAccountDetails cl id with
      | None => inl Panic
      | Some (None, _) => fetchAccounts cl rest infos
      | Some (Some val, Some err) => inl (Fatal err)
      | Some (Some val, None) => fetchAccounts cl rest (infos ++ [val])
      end
  end.

(** Lines 283-311 of [main]: the loop over the ids, and what is done with
    the records it collected. *)
Definition syncAccounts `{Platform} (cl : Client) (now : Z) (ids : list string)
    (st : Storer) : Exit * Storer :=
  match fetchAccounts cl ids [] with
  | inl e => (e, st)
  | inr infos =>
      if (length infos =? 0)%nat then (NothingToDo, st)
      else match saveAccountDetails now infos st with
           | (Err e, st') => (Fatal e, st')
           | (Ok _, st') => (Finished, st')
           end
  end.

(** *** Authentication

    Lines 267-272 of [main]: which authentication the client is given,
    from the values of [--basic] and [--cookie]. *)

(** [strings.Split(s, sep)] for a separator of one byte. *)
Fixpoint Split (s : string) (sep : ascii) : list string :=
  match s with
  | EmptyString => [EmptyString]
  | String c rest =>
      if decide (c = sep) then EmptyString :: Split rest sep
      else match Split rest sep with
           | f :: fs => String c f :: fs
           | [] => [String c EmptyString]
           end
  end.

(** [strings.Contains(s, sep)] for a separator of one byte. *)
Fixpoint Contains (s : string) (sep : ascii) : bool :=
  match s with
  | EmptyString => false
  | String c rest => if decide (c = sep) then true else Contains rest sep
  end.

(** What [client.Authentication] holds after lines 267-272. *)
Inductive Authentication :=
| AuthNone
| AuthBasic (username password : string)
| AuthCookie (name value : string).

(** [None] is the panic of [fields[1]] on a slice of length one. *)
Definition authentication (basicAuth cookieAuth : string) : option Authentication :=
  if decide (basicAuth <> "") then
    match Split basicAuth ":" with
    | f0 :: f1 :: _ => Some (AuthBasic f0 f1)
    | _ => None
    end
  else if decide (cookieAuth <> "") then Some (AuthCookie "o" cookieAuth)
  else Some AuthNone.

(** *** The whole of [main] *)

(** The flags and arguments after [flag.Parse]. *)
Record Flags := {
  url : string;
  repoDir : string;
  basicAuth : string;
  cookieAuth : string;
  Args : list string;
}.

Definition with_args (ids : list string) (fl : Flags) : Flags :=
  {| url := url fl; repoDir := repoDir fl; basicAuth := basicAuth fl;
     cookieAuth := cookieAuth fl; Args := ids |}.

Record AccountCapabilityInfo := { AccessDatabase : bool }.

(** A Gerrit server as a client with a given authentication sees it. *)
Record Server := {
  ListAccountCapabilities :
    string -> option AccountCapabilityInfo * option Response * option error;
  accounts : Client;
}.

(** What [main] finds around it: whether [git.PlainOpen] and
    [gerrit.NewClient] fail, and the server behind a URL. The repository
    that [--repo] names is the store the run starts from. *)
Record World := {
  PlainOpen : string -> option error;
  NewClient : string -> option error;
  Connect : string -> Authentication -> Server;
}.

(** Lines 243-281 of [main]: [inl] when the process ends there, else the
    client that the loop talks to. The panics are those of [fields[1]] and
    of dereferencing nil capabilities. *)
Definition front_end (w : World) (fl : Flags) : Exit + Client :=
  if decide (repoDir fl = "") then inl (FatalMsg "must specify --repo")
  else if (length (Args fl) =? 0)%nat
  then inl (FatalMsg "must specify 1 or more account IDs.")
  else match PlainOpen w (repoDir fl) with
  | Some e => inl (Fatal e)
  | None =>
  match NewClient w (url fl) with
  | Some e => inl (Fatal e)
  | None =>
  match authentication (basicAuth fl) (cookieAuth fl) with
  | None => inl Panic
  | Some auth =>
      let client := Connect w (url fl) auth in
      let '(caps, _, err) := ListAccountCapabilities client "self" in
      match err with
      | Some e => inl (Fatal e)
      | None =>
          match caps with
          | None => inl Panic
          | Some c =>
              if AccessDatabase c then inr (accounts client)
              else inl (FatalMsg "need accessDatabase capability.")
          end
      end
  end end end.

(** [main]; [st] is the repository at [--repo], [now] what [time.Now]
    returns. *)
Definition main `{Platform} (w : World) (now : Z) (fl : Flags) (st : Storer)
    : Exit * Storer :=
  match front_end w fl with
  | inl e => (e, st)
  | inr cl => syncAccounts cl now (Args fl) st
  end.

(** ** Relations between the store before and after

    Relations that every step of a build preserves.

    [preserves R m]: whatever the outcome of [m], the store it leaves is
    [R]-related to the store it started from. For a preorder [R] that holds
    across a consumed fault and across the storing of an object, it holds
    across everything [saveAccountDetails] does before [UpdateRepo]. *)
Definition preserves (R : relation Storer) {A} (m : M A) : Prop :=
  forall st, R st (snd (m st)).

(** The references are as before. *)
Definition same_refs : relation Storer := fun st st1 => refs st1 = refs st.

(** Every object is stored under its own hash. *)
Definition store_wf `{Platform} (st : Storer) : Prop :=
  forall h o, objects st !! h = Some o -> hashObj o = h.

(** From a well-formed store: the store stays well-formed and loses no
    object. *)
Definition grows `{Platform} : relation Storer := fun st st1 =>
  store_wf st -> store_wf st1 /\ objects st ⊆ objects st1.

(** [reports m]: [m] reports every call that failed. Of the script it
    consumed, every entry was a success, unless it returns the I/O error
    of a call: then the last entry consumed was that call's failure. *)
Definition reports {A} (m : M A) : Prop :=
  forall st, exists k : nat,
    match fst (m st) with
    | Err (ErrIO _) => faults st = replicate k false ++ true :: faults (snd (m st))
    | _ => faults st = replicate k false ++ faults (snd (m st))
    end.

(** ** A concrete platform

    A collision-free hash (stdpp's injective numbering of the objects), the
    map's own enumeration as [range] order, and a rendering of configurations
    in git's syntax for values that need no quoting. *)
Definition FileMode_to_nat (m : FileMode) : nat :=
  match m with
  | Empty => 0 | Dir => 1 | Regular => 2 | Deprecated => 3
  | Executable => 4 | Symlink => 5 | Submodule => 6
  end.

Definition FileMode_of_nat (n : nat) : FileMode :=
  match n with
  | 0 => Empty | 1 => Dir | 2 => Regular | 3 => Deprecated
  | 4 => Executable | 5 => Symlink | _ => Submodule
  end%nat.

#[global] Instance FileMode_countable : Countable FileMode.
Proof.
  apply (inj_countable' FileMode_to_nat FileMode_of_nat).
  intros []; reflexivity.
Defined.

#[global] Instance TreeEntry_countable : Countable TreeEntry.
Proof.
  apply (inj_countable'
    (fun e => (entryName e, entryMode e, entryHash e))
    (fun t => {| entryName := t.1.1; entryMode := t.1.2; entryHash := t.2 |})).
  intros []; reflexivity.
Defined.

#[global] Instance Signature_countable : Countable Signature.
Proof.
  apply (inj_countable'
    (fun s => (sigName s, sigEmail s, When s))
    (fun t => {| sigName := t.1.1; sigEmail := t.1.2; When := t.2 |})).
  intros []; reflexivity.
Defined.

#[global] Instance Obj_countable : Countable Obj.
Proof.
  apply (inj_countable'
    (fun o => match o with
              | BlobObject d => inl d
              | TreeObject es => inr (inl es)
              | CommitObject a c m t ps => inr (inr (a, c, m, t, ps))
              end)
    (fun x => match x with
              | inl d => BlobObject d
              | inr (inl es) => TreeObject es
              | inr (inr (a, c, m, t, ps)) => CommitObject a c m t ps
              end)).
  intros []; reflexivity.
Defined.

Definition ideal_hash (o : Obj) : Hash := Npos (encode o).

Definition nl : string := String (ascii_of_nat 10) EmptyString.
Definition tab : string := String (ascii_of_nat 9) EmptyString.
Definition dquote : string := String (ascii_of_nat 34) EmptyString.

Definition render_header (o : ConfigOption) : string :=
  if decide (optSubsection o = "") then "[" +:+ optSection o +:+ "]" +:+ nl
  else "[" +:+ optSection o +:+ " " +:+ dquote +:+ optSubsection o +:+ dquote +:+ "]" +:+ nl.

Fixpoint render_config (prev : option (string * string)) (cfg : Config) : string :=
  match cfg with
  | [] => ""
  | o :: rest =>
      let here := (optSection o, optSubsection o) in
      (if decide (prev = Some here) then "" else render_header o)
      +:+ tab +:+ optKey o +:+ " = " +:+ optValue o +:+ nl
      +:+ render_config (Some here) rest
  end.

#[global] Instance ideal : Platform := {|
  hashObj := ideal_hash;
  range_order := map_to_list;
  range_order_perm := fun m => Permutation_refl (map_to_list m);
  encodeConfig := render_config None;
|}.

(** ** Concrete runs on the concrete platform *)

Definition empty_repo : Storer := {| objects := ∅; refs := ∅; faults := [] |}.

Definition with_script (f : list bool) : Storer :=
  {| objects := ∅; refs := ∅; faults := f |}.

(** A transaction with two updates; the concrete [range] yields the first
    name before the second. *)
Definition tr_ab : RefTransaction :=
  {| updates := <["refs/users/02/2" := Some {| NewID := 12%N |}]>
                (<["refs/users/01/1" := Some {| NewID := 11%N |}]> ∅) |}.

(** A transaction with one deletion, and a store whose next call fails. *)
Definition tr_delete : RefTransaction :=
  {| updates := {["refs/users/01/1" := None]} |}.

Definition st_failing_remove : Storer :=
  {| objects := ∅; refs := {["refs/users/01/1" := 11%N]}; faults := [true] |}.

Definition acct7 : AccountInfo :=
  {| account := {| AccountID := 7; Name := "A"; Email := "a@x" |}; extIDs := [] |}.

(** Two entries handed over in descending order of their names. *)
Definition entry_b : TreeEntry :=
  {| entryName := "b"; entryMode := Regular; entryHash := 2%N |}.
Definition entry_a : TreeEntry :=
  {| entryName := "a"; entryMode := Regular; entryHash := 1%N |}.

(** Account 8, without identities. *)
Definition acct8 : AccountInfo :=
  {| account := {| AccountID := 8; Name := "B"; Email := "b@x" |}; extIDs := [] |}.

(** The accounts of a Gerrit server that knows account 8, answers the
    request for account 7 with status 500, and drops the connection on any
    other id. *)
Definition client_flaky : Client :=
  {| GetAccountDetails := fun id =>
       if decide (id = "8") then
         (Some {| AccountID := 8; Name := "B"; Email := "b@x" |},
          Some {| StatusCode := 200 |}, None)
       else if decide (id = "7") then
         (None, Some {| StatusCode := 500 |}, Some (ErrRemote "500 Internal Server Error"))
       else (None, None, Some (ErrRemote "connection reset by peer"));
     GetAccountExternalIDs := fun id =>
       if decide (id = "8") then ([], Some {| StatusCode := 200 |}, None)
       else ([], None, Some (ErrRemote "connection reset by peer")) |}.

(** That server grants [accessDatabase] to whoever asks. *)
Definition server_flaky : Server :=
  {| ListAccountCapabilities := fun _ =>
       (Some {| AccessDatabase := true |}, Some {| StatusCode := 200 |}, None);
     accounts := client_flaky |}.

(** A server that cannot be reached at all. *)
Definition server_down : Server :=
  {| ListAccountCapabilities := fun _ => (None, None, Some (ErrRemote "connection refused"));
     accounts :=
       {| GetAccountDetails := fun _ => (None, None, Some (ErrRemote "connection refused"));
          GetAccountExternalIDs := fun _ => ([], None, Some (ErrRemote "connection refused")) |} |}.

(** A world in which the repository opens, the URL parses, and the server
    is [srv] whatever the authentication. *)
Definition world_of (srv : Server) : World :=
  {| PlainOpen := fun _ => None; NewClient := fun _ => None; Connect := fun _ _ => srv |}.

Definition flags_of (ids : list string) : Flags :=
  {| url := "http://localhost:8080/"; repoDir := "/srv/git/All-Users.git";
     basicAuth := "admin:secret"; cookieAuth := ""; Args := ids |}.


Definition no_updates : RefTransaction := {| updates := ∅ |}.

(** Account 7 as before, now with an external identity. *)
Definition acct7_with_identity : AccountInfo :=
  {| account := {| AccountID := 7; Name := "A"; Email := "a@x" |};
     extIDs := [ {| Identity := "username:a"; EmailAddress := "a@x" |} ] |}.

(** Account 8 with an external identity. *)
Definition acct8_with_identity : AccountInfo :=
  {| account := {| AccountID := 8; Name := "B"; Email := "b@x" |};
     extIDs := [ {| Identity := "username:b"; EmailAddress := "b@x" |} ] |}.

(** Account 7 with another email. *)
Definition acct7_new_email : AccountInfo :=
  {| account := {| AccountID := 7; Name := "A"; Email := "a@y" |}; extIDs := [] |}.

(** The store after a first run over account 7. *)
Definition after_first_run : Storer :=
  snd (saveAccountDetails 1000 [acct7] empty_repo).

(** The store after a first run over account 7 with its identity: the
    ledger tree holds one entry. *)
Definition after_identity_run : Storer :=
  snd (saveAccountDetails 1000 [acct7_with_identity] empty_repo).

(** The entries of the tree that the ledger reference leads to. *)
Definition ledgerEntries (st : Storer) : option (list TreeEntry) :=
  h ← refs st !! extRefName;
  c ← objects st !! h;
  match c with
  | CommitObject _ _ _ t _ =>
      o ← objects st !! t;
      match o with TreeObject es => Some es | _ => None end
  | _ => None
  end.

(** ** Further definitions for the properties of the whole program *)

(** The record a request for [id] contributes to the batch, if any. *)
Definition fetched (cl : Client) (id : string) : option AccountInfo :=
  match getAccountDetails cl id with
  | Some (Some val, _) => Some val
  | _ => None
  end.

(** A server that knows account 7, answers 404 for account 99 and cannot be
    reached for any other id. *)
Definition client_demo : Client :=
  {| GetAccountDetails := fun id =>
       if decide (id = "7") then
         (Some {| AccountID := 7; Name := "A"; Email := "a@x" |},
          Some {| StatusCode := 200 |}, None)
       else if decide (id = "99") then
         (None, Some {| StatusCode := 404 |}, Some (ErrRemote "404 Not Found"))
       else (None, None, Some (ErrRemote "connection refused"));
     GetAccountExternalIDs := fun id =>
       if decide (id = "7") then
         ([ {| Identity := "username:a"; EmailAddress := "a@x" |} ],
          Some {| StatusCode := 200 |}, None)
       else ([], None, Some (ErrRemote "connection refused")) |}.

(** The server with those accounts; it grants [accessDatabase]. *)
Definition server_demo : Server :=
  {| ListAccountCapabilities := fun _ =>
       (Some {| AccessDatabase := true |}, Some {| StatusCode := 200 |}, None);
     accounts := client_demo |}.

(** ** Further stores and transactions *)

(** A transaction that sets one reference and deletes another. *)
Definition tr_mixed : RefTransaction :=
  {| updates := <["refs/users/02/2" := Some {| NewID := 12%N |}]>
                (<["refs/users/01/1" := None]> ∅) |}.

(** A store with two references and no objects. *)
Definition st_two_refs : Storer :=
  {| objects := ∅;
     refs := <["refs/users/01/1" := 11%N]> {["refs/meta/config" := 5%N]};
     faults := [] |}.

(** A store whose ledger reference leads to no object. *)
Definition st_dangling : Storer :=
  {| objects := ∅; refs := {[extRefName := 5%N]}; faults := [] |}.

(** A commit as a caller of [SaveCommit] would build it. *)
Definition commit_demo : Commit :=
  {| commitHash := ZeroHash; Author := newSig 1000; Committer := newSig 1000;
     Message := "update"; TreeHash := 5%N; ParentHashes := [11%N] |}.

(** The characters [%x] writes. *)
Definition hex_digits : list ascii := list_ascii_of_string "0123456789abcdef".

(** * Properties *)

(** ** Sanity of the primitives *)

Example sha1_empty : sha1_hex "" = "da39a3ee5e6b4b0d3255bfef95601890afd80709".
Proof. vm_compute. reflexivity. Qed.

Example sha1_abc : sha1_hex "abc" = "a9993e364706816aba3e25717850c26c9cd0d89d".
Proof. vm_compute. reflexivity. Qed.

Example sha1_two_blocks :
  sha1_hex "abcdbcdecdefdefgefghfghighijhijkijkljklmklmnlmnomnopnopq"
  = "84983e441c3bd26ebaae4aa1f95129e5e54670f1".
Proof. vm_compute. reflexivity. Qed.

Example uidRefNameOf_examples :
  uidRefNameOf 7 = "refs/users/07/7"
  /\ uidRefNameOf 1000123 = "refs/users/23/1000123"
  /\ uidRefNameOf 100 = "refs/users/00/100".
Proof. repeat split; vm_compute; reflexivity. Qed.

Example merge_join_example :
  merge_join
    [ {| entryName := "a"; entryMode := Regular; entryHash := 1%N |};
      {| entryName := "c"; entryMode := Regular; entryHash := 3%N |} ]
    [ {| entryName := "a"; entryMode := Regular; entryHash := ZeroHash |};
      {| entryName := "b"; entryMode := Regular; entryHash := 2%N |};
      {| entryName := "c"; entryMode := Regular; entryHash := 9%N |};
      {| entryName := "d"; entryMode := Regular; entryHash := ZeroHash |} ]
  = [ {| entryName := "b"; entryMode := Regular; entryHash := 2%N |};
      {| entryName := "c"; entryMode := Regular; entryHash := 9%N |} ].
Proof. reflexivity. Qed.

(** ** The monad *)

Lemma bind_inv_ok {A B} (m : M A) (k : A -> M B) st b st2 :
  bind m k st = (Ok b, st2) ->
  exists a st1, m st = (Ok a, st1) /\ k a st1 = (Ok b, st2).
Proof.
  unfold bind. destruct (m st) as [[a|e] st1]; [eauto | discriminate].
Qed.

Lemma bind_inv_err {A B} (m : M A) (k : A -> M B) st e st2 :
  bind m k st = (Err e, st2) ->
  m st = (Err e, st2) \/ exists a st1, m st = (Ok a, st1) /\ k a st1 = (Err e, st2).
Proof.
  unfold bind. destruct (m st) as [[a|e'] st1]; [eauto | intros [= -> ->]; auto].
Qed.


Lemma bind_err {A B} (m : M A) (k : A -> M B) st e st1 :
  m st = (Err e, st1) -> bind m k st = (Err e, st1).
Proof. unfold bind. intros ->. reflexivity. Qed.

(** A storer call on a store whose script says so fails, and nothing but
    the script changes. *)
Lemma storer_call_fault {A} op (body : M A) st fs :
  faults st = true :: fs -> storer_call op body st = (Err (ErrIO op), with_faults fs st).
Proof. unfold storer_call. intros ->. reflexivity. Qed.

(** ** What a build preserves *)

Create HintDb storer discriminated.

Section Preserved.
Context `{Platform} (R : relation Storer) `{!PreOrder R}.
Hypothesis R_faults : forall fs st, R st (with_faults fs st).
Hypothesis R_store : forall o st, R st (with_objects (<[hashObj o := o]> (objects st)) st).

Lemma preserves_ret {A} (a : A) : preserves R (ret a).
Proof. intros st. reflexivity. Qed.

Lemma preserves_fail {A} e : preserves R (@fail A e).
Proof. intros st. reflexivity. Qed.

Lemma preserves_bind {A B} (m : M A) (k : A -> M B) :
  preserves R m -> (forall a, preserves R (k a)) -> preserves R (bind m k).
Proof.
  intros Hm Hk st. unfold bind. specialize (Hm st).
  destruct (m st) as [[a|e] st1]; simpl in *; [|assumption].
  etransitivity; [exact Hm | apply Hk].
Qed.

Lemma preserves_call {A} op (body : M A) :
  preserves R body -> preserves R (storer_call op body).
Proof.
  intros Hb st. unfold storer_call.
  destruct (faults st) as [|[] fs]; [apply Hb | apply R_faults |].
  etransitivity; [apply (R_faults fs) | apply Hb].
Qed.

Hint Resolve preserves_ret preserves_fail preserves_bind preserves_call : storer.

Lemma preserves_SetEncodedObject o : preserves R (SetEncodedObject o).
Proof. apply preserves_call. intros st. apply R_store. Qed.

Lemma preserves_EncodedObject h : preserves R (EncodedObject h).
Proof.
  apply preserves_call. intros st. simpl. destruct (objects st !! h); reflexivity.
Qed.

Lemma preserves_Reference name : preserves R (Reference name).
Proof.
  apply preserves_call. intros st. simpl. destruct (refs st !! name); reflexivity.
Qed.

Hint Resolve preserves_SetEncodedObject preserves_EncodedObject preserves_Reference : storer.

Lemma preserves_CommitObject h : preserves R (Repository_CommitObject h).
Proof.
  unfold Repository_CommitObject. apply preserves_bind; [auto with storer|].
  intros []; auto with storer.
Qed.

Lemma preserves_TreeObject h : preserves R (Repository_TreeObject h).
Proof.
  unfold Repository_TreeObject. apply preserves_bind; [auto with storer|].
  intros []; auto with storer.
Qed.

Lemma preserves_SaveConfig cfg : preserves R (SaveConfig cfg).
Proof. apply preserves_SetEncodedObject. Qed.

Lemma preserves_SaveCommit c : preserves R (SaveCommit c).
Proof. apply preserves_SetEncodedObject. Qed.

Lemma preserves_SaveTree es : preserves R (SaveTree es).
Proof. apply preserves_SetEncodedObject. Qed.

Lemma preserves_PatchTree base upd : preserves R (PatchTree base upd).
Proof.
  unfold PatchTree. destruct (decide _); [apply preserves_SaveTree | apply preserves_fail].
Qed.

Hint Resolve preserves_CommitObject preserves_TreeObject preserves_SaveConfig
  preserves_SaveCommit preserves_SaveTree preserves_PatchTree : storer.

Lemma preserves_referenceCommit name : preserves R (referenceCommit name).
Proof.
  intros st. unfold referenceCommit.
  pose proof (preserves_Reference name st) as Hr.
  destruct (Reference name st) as [[h|e] st1]; simpl in Hr.
  - etransitivity; [exact Hr|]. apply preserves_bind; auto with storer.
  - destruct e; assumption.
Qed.

Lemma preserves_saveExtIDs accountID es newEntries :
  preserves R (saveExtIDs accountID es newEntries).
Proof.
  revert newEntries. induction es as [|e es IH]; intros newEntries; simpl; auto with storer.
Qed.

Hint Resolve preserves_referenceCommit preserves_saveExtIDs : storer.

Lemma preserves_saveAccount s inf acc : preserves R (saveAccount s inf acc).
Proof.
  unfold saveAccount.
  repeat (apply preserves_bind; [auto with storer | intros ?]).
  repeat case_match; auto 6 with storer.
Qed.

Lemma preserves_saveAccounts s infos acc : preserves R (saveAccounts s infos acc).
Proof.
  revert acc. induction infos as [|inf infos IH]; intros acc; simpl.
  - auto with storer.
  - apply preserves_bind; [apply preserves_saveAccount | auto].
Qed.

Lemma preserves_saveExtCommit s extCommit acc : preserves R (saveExtCommit s extCommit acc).
Proof.
  unfold saveExtCommit.
  apply preserves_bind; [destruct extCommit; auto with storer | intros ?].
  repeat (apply preserves_bind; [auto with storer | intros ?]).
  repeat case_match; auto with storer.
Qed.

Lemma preserves_buildTransaction now infos : preserves R (buildTransaction now infos).
Proof.
  unfold buildTransaction.
  apply preserves_bind; [auto with storer | intros ?].
  apply preserves_bind; [apply preserves_saveAccounts | intros ?].
  apply preserves_saveExtCommit.
Qed.

End Preserved.


#[global] Instance same_refs_preorder : PreOrder same_refs.
Proof. split; [intros st; reflexivity | intros st1 st2 st3; unfold same_refs; congruence]. Qed.



#[global] Instance grows_preorder `{Platform} : PreOrder grows.
Proof.
  split.
  - intros st Hwf. split; [assumption | reflexivity].
  - intros st1 st2 st3 H12 H23 Hwf. destruct (H12 Hwf) as [Hwf2 Hsub12].
    destruct (H23 Hwf2) as [Hwf3 Hsub23]. split; [assumption | etransitivity; eassumption].
Qed.

Section Facts.
Context `{Platform}.

Lemma keeps_refs_saveAccount s inf acc st :
  refs (snd (saveAccount s inf acc st)) = refs st.
Proof. apply (preserves_saveAccount same_refs); reflexivity. Qed.

Lemma keeps_refs_saveAccounts s infos acc st :
  refs (snd (saveAccounts s infos acc st)) = refs st.
Proof. apply (preserves_saveAccounts same_refs); reflexivity. Qed.

Lemma keeps_refs_saveExtCommit s extCommit acc st :
  refs (snd (saveExtCommit s extCommit acc st)) = refs st.
Proof. apply (preserves_saveExtCommit same_refs); reflexivity. Qed.

Lemma keeps_refs_buildTransaction now infos st :
  refs (snd (buildTransaction now infos st)) = refs st.
Proof. apply (preserves_buildTransaction same_refs); reflexivity. Qed.

(** Without collisions, storing an object grows the store. *)
Lemma grows_store (Hinj : Inj (=) (=) hashObj) o st :
  grows st (with_objects (<[hashObj o := o]> (objects st)) st).
Proof.
  intros Hwf. split.
  - intros h o1. simpl. intros [[<- <-]|[_ Hold]]%lookup_insert_Some; [reflexivity|].
    apply Hwf, Hold.
  - simpl. apply map_subseteq_spec. intros h o1 Hold.
    destruct (decide (hashObj o = h)) as [<-|Hne].
    + apply Hwf, Hinj in Hold as ->. apply lookup_insert_eq.
    + rewrite lookup_insert_ne by assumption. exact Hold.
Qed.

Lemma grows_faults fs st : grows st (with_faults fs st).
Proof. intros Hwf. split; [exact Hwf | reflexivity]. Qed.

(** ** [UpdateRepo] *)

Lemma SetReference_inv_ok name h st st1 :
  SetReference name h st = (Ok tt, st1) ->
  refs st1 = <[name := h]> (refs st) /\ objects st1 = objects st.
Proof.
  unfold SetReference, storer_call.
  destruct (faults st) as [|[] fs]; intros [= <-]; auto.
Qed.

Lemma SetReference_inv_err name h st e st1 :
  SetReference name h st = (Err e, st1) ->
  e = ErrIO OpSetReference /\ refs st1 = refs st /\ objects st1 = objects st.
Proof.
  unfold SetReference, storer_call.
  destruct (faults st) as [|[] fs]; intros [= <- <-]; auto.
Qed.

Lemma RemoveReference_refs name st :
  (refs (snd (RemoveReference name st)) = delete name (refs st)
   \/ refs (snd (RemoveReference name st)) = refs st)
  /\ objects (snd (RemoveReference name st)) = objects st.
Proof.
  unfold RemoveReference, storer_call.
  destruct (faults st) as [|[] fs]; simpl; auto.
Qed.

Lemma UpdateRepo_range_app l1 l2 st :
  UpdateRepo_range (l1 ++ l2) st
  = bind (UpdateRepo_range l1) (fun _ => UpdateRepo_range l2) st.
Proof.
  revert st. induction l1 as [|[name [u|]] l1 IH]; intros st; simpl.
  - reflexivity.
  - unfold bind. destruct (SetReference name (NewID u) st) as [[[]|e] st1]; [|reflexivity].
    rewrite IH. reflexivity.
  - apply IH.
Qed.

(** The only error [UpdateRepo] returns is a failed [SetReference]. *)
Lemma UpdateRepo_range_err l st e :
  fst (UpdateRepo_range l st) = Err e -> e = ErrIO OpSetReference.
Proof.
  revert st. induction l as [|[name [u|]] l IH]; intros st; simpl.
  - discriminate.
  - unfold bind. destruct (SetReference name (NewID u) st) as [[[]|e'] st1] eqn:E.
    + apply IH.
    + apply SetReference_inv_err in E as [-> _]. intros [= <-]. reflexivity.
  - apply IH.
Qed.

Lemma UpdateRepo_range_objects l st :
  objects (snd (UpdateRepo_range l st)) = objects st.
Proof.
  revert st. induction l as [|[name [u|]] l IH]; intros st; simpl.
  - reflexivity.
  - unfold bind. destruct (SetReference name (NewID u) st) as [[[]|e'] st1] eqn:E.
    + rewrite IH. apply SetReference_inv_ok in E as [_ ->]. reflexivity.
    + apply SetReference_inv_err in E as (_ & _ & E). exact E.
  - rewrite IH. apply RemoveReference_refs.
Qed.

(** After a transaction that went through, every update of it is in place,
    every deletion of it has removed the reference or, where the removal
    failed, left it, and every name outside it is as before. *)
Lemma UpdateRepo_range_ok l st st1 :
  NoDup l.*1 ->
  UpdateRepo_range l st = (Ok tt, st1) ->
  (forall k u, (k, Some u) ∈ l -> refs st1 !! k = Some (NewID u))
  /\ (forall k, (k, None) ∈ l -> refs st1 !! k = None \/ refs st1 !! k = refs st !! k)
  /\ (forall k, k ∉ l.*1 -> refs st1 !! k = refs st !! k).
Proof.
  revert st. induction l as [|[name [u|]] l IH]; intros st Hnd Hrun; simpl in *.
  - injection Hrun as <-.
    split; [intros k u Hin; inversion Hin|]. split; [intros k Hin; inversion Hin | reflexivity].
  - apply NoDup_cons in Hnd as [Hname Hnd].
    apply bind_inv_ok in Hrun as ([] & st0 & Hset & Hrest).
    apply SetReference_inv_ok in Hset as [Hrefs _].
    destruct (IH _ Hnd Hrest) as (IH1 & IH2 & IH3).
    assert (forall k v, (k, v) ∈ l -> refs st0 !! k = refs st !! k) as Hother.
    { intros k v Hin. rewrite Hrefs. apply lookup_insert_ne. intros <-.
      apply Hname. apply (list_elem_of_fmap_2 fst) in Hin. exact Hin. }
    split; [|split].
    + intros k u' [[= -> ->]|Hin]%elem_of_cons; [|auto].
      rewrite IH3, Hrefs by assumption. apply lookup_insert_eq.
    + intros k [[=]|Hin]%elem_of_cons.
      rewrite <- (Hother _ _ Hin). auto.
    + intros k [Hk Hl]%not_elem_of_cons.
      rewrite IH3, Hrefs by assumption. apply lookup_insert_ne. congruence.
  - apply NoDup_cons in Hnd as [Hname Hnd].
    destruct (IH _ Hnd Hrun) as (IH1 & IH2 & IH3).
    destruct (RemoveReference_refs name st) as [Hrem _].
    assert (forall k, k <> name ->
              refs (snd (RemoveReference name st)) !! k = refs st !! k) as Hother.
    { intros k Hk. destruct Hrem as [-> | ->]; [|reflexivity].
      apply lookup_delete_ne. congruence. }
    split; [|split].
    + intros k u' [[=]|Hin]%elem_of_cons; auto.
    + intros k [[= ->]|Hin]%elem_of_cons.
      * rewrite IH3 by assumption.
        destruct Hrem as [-> | ->]; [left; apply lookup_delete_eq | right; reflexivity].
      * rewrite <- (Hother k); [auto|]. intros ->.
        apply Hname. apply (list_elem_of_fmap_2 fst) in Hin. exact Hin.
    + intros k [Hk Hl]%not_elem_of_cons. rewrite IH3 by assumption. apply Hother, Hk.
Qed.

Lemma range_order_NoDup m : NoDup (range_order m).*1.
Proof. rewrite range_order_perm. apply NoDup_fst_map_to_list. Qed.

Lemma elem_of_range_order m k v : (k, v) ∈ range_order m <-> m !! k = Some v.
Proof. rewrite range_order_perm. apply elem_of_map_to_list. Qed.

End Facts.

(** ** Reference transactions *)

Section Transactions.
Context `{Platform}.

Lemma UpdateRepo_range_deletions l st :
  (forall k v, (k, v) ∈ l -> v = None) -> fst (UpdateRepo_range l st) = Ok tt.
Proof.
  revert st. induction l as [|[name v] l IH]; intros st Hdel; simpl.
  - reflexivity.
  - rewrite (Hdel name v) by left. apply IH.
    intros k v' Hin. apply (Hdel k). right. assumption.
Qed.

(** C10: [UpdateRepo] drops what [RemoveReference] returns. It never returns
    an error of a removal, and a transaction of deletions alone reports
    success whatever the removals did. *)
Theorem UpdateRepo_drops_remove_errors (tr : RefTransaction) (st : Storer) :
  (forall e, fst (UpdateRepo tr st) = Err e -> e <> ErrIO OpRemoveReference)
  /\ ((forall k v, updates tr !! k = Some v -> v = None) ->
      fst (UpdateRepo tr st) = Ok tt).
Proof.
  split.
  - intros e He. apply UpdateRepo_range_err in He as ->. discriminate.
  - intros Hdel. apply UpdateRepo_range_deletions.
    intros k v Hin. apply (Hdel k). apply elem_of_range_order. assumption.
Qed.

(** C7: when [SetReference] fails at some entry of the transaction, after
    the entries [l1] before it went through, [UpdateRepo] returns that error;
    the updates of [l1] are in place (a deletion of [l1] has removed the
    reference, or left it where the removal failed), and the failed entry
    and the entries [l2] after it are as they were. *)
Theorem UpdateRepo_partial_failure (tr : RefTransaction) (st st1 st2 : Storer)
    (l1 l2 : list (string * option RefUpdate)) (name : string) (update : RefUpdate)
    (e : error) :
  range_order (updates tr) = l1 ++ (name, Some update) :: l2 ->
  UpdateRepo_range l1 st = (Ok tt, st1) ->
  SetReference name (NewID update) st1 = (Err e, st2) ->
  UpdateRepo tr st = (Err e, st2)
  /\ (forall k u, (k, Some u) ∈ l1 -> refs st2 !! k = Some (NewID u))
  /\ (forall k, (k, None) ∈ l1 -> refs st2 !! k = None \/ refs st2 !! k = refs st !! k)
  /\ (forall k v, (k, v) ∈ (name, Some update) :: l2 -> refs st2 !! k = refs st !! k).
Proof.
  intros Horder Hl1 Hset.
  pose proof (range_order_NoDup (updates tr)) as Hnd.
  rewrite Horder, fmap_app in Hnd. apply NoDup_app in Hnd as (Hnd1 & Hdisj & _).
  destruct (UpdateRepo_range_ok _ _ _ Hnd1 Hl1) as (Hin & Hdel & Hout).
  pose proof Hset as Hset'.
  apply SetReference_inv_err in Hset' as (_ & Hrefs & _).
  split; [|split; [|split]].
  - unfold UpdateRepo. rewrite Horder, UpdateRepo_range_app.
    unfold bind. rewrite Hl1. simpl. unfold bind. rewrite Hset. reflexivity.
  - intros k u Hk. rewrite Hrefs. eauto.
  - intros k Hk. rewrite Hrefs. auto.
  - intros k v Hk. rewrite Hrefs. apply Hout.
    intros Hk1. apply (Hdisj k Hk1).
    apply (list_elem_of_fmap_2 fst) in Hk. exact Hk.
Qed.

End Transactions.

Lemma UpdateRepo_drops_remove_errors_witness :
  fst (UpdateRepo tr_delete st_failing_remove) = Ok tt
  /\ refs (snd (UpdateRepo tr_delete st_failing_remove)) !! "refs/users/01/1" = Some 11%N.
Proof.
  split.
  - apply (UpdateRepo_drops_remove_errors tr_delete st_failing_remove).
    intros k v Hk. unfold tr_delete in Hk. cbn [updates] in Hk.
    apply lookup_singleton_Some in Hk as [_ <-]. reflexivity.
  - vm_compute. reflexivity.
Defined.

Lemma UpdateRepo_partial_failure_witness :
  let st := with_script [false; true] in
  let st1 := {| objects := ∅; refs := {["refs/users/01/1" := 11%N]}; faults := [true] |} in
  let st2 := {| objects := ∅; refs := {["refs/users/01/1" := 11%N]}; faults := [] |} in
  UpdateRepo tr_ab st = (Err (ErrIO OpSetReference), st2)
  /\ (forall k u, (k, Some u) ∈ [("refs/users/01/1", Some {| NewID := 11%N |})] ->
      refs st2 !! k = Some (NewID u))
  /\ (forall k, (k, None) ∈ [("refs/users/01/1", Some {| NewID := 11%N |})] ->
      refs st2 !! k = None \/ refs st2 !! k = refs st !! k)
  /\ (forall k v, (k, v) ∈ [("refs/users/02/2", Some {| NewID := 12%N |})] ->
      refs st2 !! k = refs st !! k).
Proof.
  intros st st1 st2.
  apply (UpdateRepo_partial_failure tr_ab st st1 st2
           [("refs/users/01/1", Some {| NewID := 11%N |})] []
           "refs/users/02/2" {| NewID := 12%N |}).
  - vm_compute. reflexivity.
  - vm_compute. reflexivity.
  - vm_compute. reflexivity.
Defined.

(** ** The canonical order and [SaveTree] *)

Lemma string_compare_trans c s1 s2 s3 :
  String.compare s1 s2 = c -> String.compare s2 s3 = c -> String.compare s1 s3 = c.
Proof.
  revert s2 s3. induction s1 as [|a1 s1 IH]; intros [|a2 s2] [|a3 s3]; simpl; try congruence.
  unfold Ascii.compare. intros H1 H2. revert H1 H2.
  destruct (N.compare_spec (N_of_ascii a1) (N_of_ascii a2));
    destruct (N.compare_spec (N_of_ascii a2) (N_of_ascii a3));
    destruct (N.compare_spec (N_of_ascii a1) (N_of_ascii a3));
    try lia; try congruence.
  apply IH.
Qed.

Lemma string_leb_trans s1 s2 s3 :
  String.leb s1 s2 = true -> String.leb s2 s3 = true -> String.leb s1 s3 = true.
Proof.
  unfold String.leb.
  destruct (String.compare s1 s2) eqn:E12; destruct (String.compare s2 s3) eqn:E23;
    try discriminate; intros _ _.
  - rewrite (string_compare_trans Eq s1 s2 s3); auto.
  - apply String.compare_eq_iff in E12 as ->. rewrite E23. reflexivity.
  - apply String.compare_eq_iff in E23 as <-. rewrite E12. reflexivity.
  - rewrite (string_compare_trans Lt s1 s2 s3); auto.
Qed.

#[global] Instance name_le_total : Total name_le.
Proof. intros e1 e2. apply String.leb_total. Qed.

#[global] Instance name_le_trans : Transitive name_le.
Proof. intros e1 e2 e3. apply string_leb_trans. Qed.

(** C9: the tree that [SaveTree] stores, and whose hash it returns, holds
    the caller's entries sorted by the byte-wise order of their names,
    whatever the order they came in. *)
Theorem SaveTree_sorts `{Platform} (entries : list TreeEntry) (st st1 : Storer) (h : N) :
  SaveTree entries st = (Ok h, st1) ->
  exists sorted,
    Sorted name_le sorted /\ sorted ≡ₚ entries
    /\ h = hashObj (TreeObject sorted)
    /\ objects st1 !! h = Some (TreeObject sorted).
Proof.
  intros Hsave. exists (SortTreeEntries entries).
  split; [apply Sorted_merge_sort, _|].
  split; [apply merge_sort_Permutation|].
  revert Hsave. unfold SaveTree, SetEncodedObject, storer_call, Tree_Encode. simpl.
  destruct (faults st) as [|[] fs]; intros [= <- <-]; simpl;
    (split; [reflexivity | apply lookup_insert_eq]).
Qed.

Lemma SaveTree_sorts_witness :
  exists sorted,
    Sorted name_le sorted /\ sorted ≡ₚ [entry_b; entry_a]
    /\ hashObj (TreeObject [entry_a; entry_b]) = hashObj (TreeObject sorted)
    /\ objects (snd (SaveTree [entry_b; entry_a] empty_repo))
         !! hashObj (TreeObject [entry_a; entry_b]) = Some (TreeObject sorted).
Proof.
  apply (SaveTree_sorts [entry_b; entry_a] empty_repo).
  vm_compute. reflexivity.
Defined.

(** Two orders of the same entries, with names that differ, give one tree. *)
Lemma SortTreeEntries_order_independent (es1 es2 : list TreeEntry) :
  NoDup (entryName <$> es1) -> es1 ≡ₚ es2 -> SortTreeEntries es1 = SortTreeEntries es2.
Proof.
  intros Hnd Hperm. unfold SortTreeEntries.
  apply (Sorted_unique_strong name_le).
  - intros e1 e2 Hin1 Hin2 H12 H21.
    rewrite merge_sort_Permutation in Hin1, Hin2. rewrite <- Hperm in Hin2.
    assert (entryName e1 = entryName e2) as Hname.
    { unfold name_le in *. apply String.leb_antisym; assumption. }
    apply list_elem_of_lookup in Hin1 as [i Hi], Hin2 as [j Hj].
    assert (i = j) as ->; [|congruence].
    apply (NoDup_lookup (entryName <$> es1) i j (entryName e1)); [assumption| |];
      rewrite list_lookup_fmap; [rewrite Hi | rewrite Hj]; simpl; congruence.
  - apply Sorted_merge_sort, _.
  - apply Sorted_merge_sort, _.
  - rewrite !merge_sort_Permutation. assumption.
Qed.

(** ** Fetching *)

Lemma getAccountDetails_value_or_error cl id val err :
  getAccountDetails cl id = Some (Some val, err) -> err = None.
Proof.
  unfold getAccountDetails.
  destruct (GetAccountDetails cl id) as [[details reply] e].
  destruct (match reply with Some r => StatusCode r =? 404 | None => false end); [discriminate|].
  destruct e; [discriminate|].
  destruct (GetAccountExternalIDs cl id) as [[ids r] e].
  destruct e; [discriminate|]. destruct details; [|discriminate].
  intros [= _ <-]. reflexivity.
Qed.

(** The test [err != nil] of the loop comes after [val == nil] and is never
    reached with an error: the loop never ends in [log.Fatal]. *)
Lemma fetchAccounts_never_fatal cl ids infos e :
  fetchAccounts cl ids infos <> inl (Fatal e).
Proof.
  revert infos. induction ids as [|id ids IH]; intros infos; simpl; [discriminate|].
  destruct (getAccountDetails cl id) as [[[val|] [err|]]|] eqn:E; try apply IH; try discriminate.
  apply getAccountDetails_value_or_error in E. discriminate.
Qed.

Lemma fetchAccounts_errors_skipped cl ids infos :
  Forall (fun id => exists e, getAccountDetails cl id = Some (None, Some e)) ids ->
  fetchAccounts cl ids infos = inr infos.
Proof.
  induction 1 as [|id ids [e He] _ IH]; simpl; [reflexivity|].
  rewrite He. exact IH.
Qed.

(** C3: once the program has got past the request for its capabilities, a
    fetch that fails with an error is skipped like a 404. Whatever the
    world, when every id fails that way the process ends with status 0
    after [nothing to do.] and the store untouched. Against a server that
    answers 500 for account 7 and knows account 8, the arguments [7] end
    that way, and the arguments [7 8] end like the argument [8] alone, with
    account 8 saved and nothing said of account 7. Only a server that
    fails already on the capabilities request ends the program fatally. *)
Theorem fetch_error_is_skipped :
  (forall (P : Platform) (w : World) (now : Z) (fl : Flags) (st : Storer) (cl : Client),
      front_end w fl = inr cl ->
      Forall (fun id => exists e, getAccountDetails cl id = Some (None, Some e)) (Args fl) ->
      main w now fl st = (NothingToDo, st))
  /\ front_end (world_of server_flaky) (flags_of ["7"]) = inr client_flaky
  /\ getAccountDetails client_flaky "7"
     = Some (None, Some (ErrRemote "500 Internal Server Error"))
  /\ main (world_of server_flaky) 1000 (flags_of ["7"]) empty_repo = (NothingToDo, empty_repo)
  /\ fetchAccounts client_flaky ["7"; "8"] [] = inr [acct8]
  /\ main (world_of server_flaky) 1000 (flags_of ["7"; "8"]) empty_repo
     = main (world_of server_flaky) 1000 (flags_of ["8"]) empty_repo
  /\ fst (main (world_of server_flaky) 1000 (flags_of ["7"; "8"]) empty_repo) = Finished
  /\ main (world_of server_down) 1000 (flags_of ["7"]) empty_repo
     = (Fatal (ErrRemote "connection refused"), empty_repo).
Proof.
  split.
  { intros P w now fl st cl Hfront Hall. unfold main, syncAccounts.
    rewrite Hfront, (fetchAccounts_errors_skipped _ _ _ Hall). reflexivity. }
  repeat split.
Qed.

(** ** The batch handed to the tree patcher *)

Section Batch.
Context `{Platform}.

Lemma SetEncodedObject_inv_ok o st h st1 :
  SetEncodedObject o st = (Ok h, st1) ->
  h = hashObj o /\ objects st1 = <[hashObj o := o]> (objects st) /\ refs st1 = refs st.
Proof.
  unfold SetEncodedObject, storer_call.
  destruct (faults st) as [|[] fs]; intros [= <- <-]; auto.
Qed.

Lemma EncodedObject_inv_ok h st o st1 :
  EncodedObject h st = (Ok o, st1) ->
  objects st !! h = Some o /\ objects st1 = objects st /\ refs st1 = refs st.
Proof.
  unfold EncodedObject, storer_call.
  destruct (faults st) as [|[] fs]; simpl; try discriminate;
    destruct (objects st !! h); intros [= <- <-]; auto.
Qed.

Lemma Reference_inv name st r st1 :
  Reference name st = (r, st1) ->
  objects st1 = objects st /\ refs st1 = refs st
  /\ match r with
     | Ok h => refs st !! name = Some h
     | Err ErrReferenceNotFound => refs st !! name = None
     | Err _ => True
     end.
Proof.
  unfold Reference, storer_call.
  destruct (faults st) as [|[] fs]; simpl;
    try destruct (refs st !! name); intros [= <- <-]; auto.
Qed.

(** What [referenceCommit] found: no reference, or the commit stored under
    the hash the reference holds. *)
Lemma referenceCommit_inv name st oc st1 :
  referenceCommit name st = (Ok oc, st1) ->
  objects st1 = objects st /\ refs st1 = refs st
  /\ match oc with
     | None => refs st !! name = None
     | Some c =>
         refs st !! name = Some (commitHash c)
         /\ objects st !! commitHash c = Some (Commit_Encode c)
     end.
Proof.
  unfold referenceCommit.
  destruct (Reference name st) as [[h|e] st0] eqn:Href;
    apply Reference_inv in Href as (Ho & Hr & Hm).
  - intros (c & st2 & Hc & [= <- <-])%bind_inv_ok.
    unfold Repository_CommitObject in Hc.
    apply bind_inv_ok in Hc as (o & st3 & Hget & Hc).
    apply EncodedObject_inv_ok in Hget as (Hget & Ho3 & Hr3).
    destruct o; try discriminate. injection Hc as <- <-. simpl.
    rewrite Ho3, Hr3, Ho, Hr. rewrite Ho in Hget. auto.
  - destruct e; try discriminate. intros [= <- <-]. auto.
Qed.

Lemma saveExtIDs_inv_ok accountID es newEntries st res st1 :
  saveExtIDs accountID es newEntries st = (Ok res, st1) ->
  res = newEntries
        ++ map (fun e => extIDEntry e
                  (hashObj (BlobObject (encodeConfig (extIDConfig accountID e))))) es.
Proof.
  revert newEntries st. induction es as [|e es IH]; intros newEntries st; simpl.
  - intros [= <- _]. rewrite app_nil_r. reflexivity.
  - intros (id & st0 & Hsave & Hrest)%bind_inv_ok.
    apply SetEncodedObject_inv_ok in Hsave as (-> & _).
    apply IH in Hrest as ->. rewrite <- app_assoc. reflexivity.
Qed.

(** One turn of the loop either skips the account, whose reference then
    exists, or appends the account's entries and enters its reference in the
    transaction. *)
Lemma saveAccount_inv_ok s inf acc st res st1 :
  saveAccount s inf acc st = (Ok res, st1) ->
  (res = acc /\ is_Some (refs st !! uidRefNameOf (AccountID (account inf))))
  \/ (fst res = fst acc ++ extIDEntries inf
      /\ exists cid, snd res = setUpdate (uidRefNameOf (AccountID (account inf))) cid (snd acc)).
Proof.
  unfold saveAccount.
  intros (bid & st2 & Hblob & Hrun)%bind_inv_ok.
  apply bind_inv_ok in Hrun as (tid & st3 & Htree & Hrun).
  apply bind_inv_ok in Hrun as (old & st4 & Hold & Hrun).
  apply SetEncodedObject_inv_ok in Hblob as (_ & _ & Hr2).
  apply SetEncodedObject_inv_ok in Htree as (_ & _ & Hr3).
  apply referenceCommit_inv in Hold as (_ & _ & Hold).
  rewrite Hr3, Hr2 in Hold.
  assert (forall c, bind (SaveCommit c) (fun id =>
            bind (saveExtIDs (AccountID (account inf)) (extIDs inf) (fst acc))
                 (fun newEntries => ret (newEntries,
                    setUpdate (uidRefNameOf (AccountID (account inf))) id (snd acc)))) st4
          = (Ok res, st1) ->
          fst res = fst acc ++ extIDEntries inf
          /\ exists cid, snd res = setUpdate (uidRefNameOf (AccountID (account inf))) cid (snd acc))
    as Hfinish.
  { intros c (cid & st5 & _ & Hext)%bind_inv_ok.
    apply bind_inv_ok in Hext as (ne & st6 & Hext & [= <- _]).
    apply saveExtIDs_inv_ok in Hext as ->. simpl. eauto. }
  destruct old as [old|].
  - destruct Hold as [Hold _]. case_decide.
    + injection Hrun as <- _. left. rewrite Hold. eauto.
    + right. eapply Hfinish, Hrun.
  - right. eapply Hfinish, Hrun.
Qed.

End Batch.


(** ** Runs on the concrete platform *)

(** C6: an account whose name and email are as in its last commit is left by
    [continue] before the loop over its identities: its identity, new to the
    ledger, yields no entry and the ledger tree stays empty. The same
    account on an empty store yields the entry. *)
Theorem identities_of_unchanged_account_dropped :
  fst (saveAccounts (newSig 2000) [acct7_with_identity] ([], no_updates) after_first_run)
    = Ok ([], no_updates)
  /\ fst (saveAccountDetails 2000 [acct7_with_identity] after_first_run) = Ok tt
  /\ ledgerEntries (snd (saveAccountDetails 2000 [acct7_with_identity] after_first_run))
     = Some []
  /\ ledgerEntries (snd (saveAccountDetails 2000 [acct7_with_identity] empty_repo))
     = Some (extIDEntries acct7_with_identity)
  /\ entryName <$> extIDEntries acct7_with_identity = [sha1_hex "username:a"].
Proof. repeat split; vm_compute; reflexivity. Qed.

(** C2: a second run over the same record adds an object. The ledger
    commit is saved before its tree is compared with the previous one: the
    references stay, but a commit with the first ledger commit as parent is
    new in the store, also when the clock has not moved. *)
Theorem second_run_adds_ledger_commit :
  let second := saveAccountDetails 2000 [acct7] after_first_run in
  let first_ledger := ledgerCommit (newSig 1000) (hashObj (TreeObject [])) [] in
  let second_ledger :=
    ledgerCommit (newSig 2000) (hashObj (TreeObject [])) [hashObj first_ledger] in
  fst second = Ok tt
  /\ refs (snd second) = refs after_first_run
  /\ refs after_first_run !! extRefName = Some (hashObj first_ledger)
  /\ objects after_first_run !! hashObj second_ledger = None
  /\ objects (snd second) !! hashObj second_ledger = Some second_ledger
  /\ size (objects after_first_run) = 5%nat
  /\ size (objects (snd second)) = 6%nat
  /\ size (objects (snd (saveAccountDetails 1000 [acct7] after_first_run))) = 6%nat.
Proof.
  repeat split; vm_compute; reflexivity.
Qed.

(** C1, as stated, fails: on an empty store, one account without
    identities gives a ledger commit (on the empty tree) besides the account
    commit, and the ledger reference is set besides the account's. *)
Lemma first_run_builds_ledger_commit :
  let ledger := ledgerCommit (newSig 1000) (hashObj (TreeObject [])) [] in
  let commit := accountCommit (newSig 1000) acct7 [] in
  fst (saveAccountDetails 1000 [acct7] empty_repo) = Ok tt
  /\ refs after_first_run !! extRefName = Some (hashObj ledger)
  /\ objects after_first_run !! hashObj ledger = Some ledger
  /\ refs after_first_run !! "refs/users/07/7" = Some (hashObj commit)
  /\ objects after_first_run !! hashObj commit = Some commit
  /\ size (refs after_first_run) = 2%nat.
Proof. repeat split; vm_compute; reflexivity. Qed.

(** ** The ledger reference *)

Section Ledger.
Context `{Platform}.

Lemma uidRefNameOf_not_ext id : uidRefNameOf id <> extRefName.
Proof. unfold uidRefNameOf, extRefName. simpl. discriminate. Qed.

(** After a transaction that went through: an update is in place, a name
    outside the transaction is as before. *)
Lemma UpdateRepo_ok_lookup tr st st1 k :
  UpdateRepo tr st = (Ok tt, st1) ->
  (forall u, updates tr !! k = Some (Some u) -> refs st1 !! k = Some (NewID u))
  /\ (updates tr !! k = None -> refs st1 !! k = refs st !! k).
Proof.
  intros Hrun. unfold UpdateRepo in Hrun.
  apply UpdateRepo_range_ok in Hrun as (Hin & _ & Hout); [|apply range_order_NoDup].
  split.
  - intros u Hu. apply Hin, elem_of_range_order, Hu.
  - intros Hnone. apply Hout. intros ([k' v] & -> & Hk)%list_elem_of_fmap.
    apply elem_of_range_order in Hk. simpl in Hnone. congruence.
Qed.

Lemma UpdateRepo_range_nofault l st :
  faults st = [] ->
  fst (UpdateRepo_range l st) = Ok tt /\ faults (snd (UpdateRepo_range l st)) = [].
Proof.
  revert st. induction l as [|[name [u|]] l IH]; intros st Hf; simpl.
  - auto.
  - unfold bind, SetReference, storer_call. rewrite Hf. apply IH. exact Hf.
  - unfold RemoveReference, storer_call. rewrite Hf. apply IH. exact Hf.
Qed.

Lemma saveAccounts_other_names s infos acc st res st1 k :
  saveAccounts s infos acc st = (Ok res, st1) ->
  k ∉ uidRefName <$> infos ->
  updates (snd res) !! k = updates (snd acc) !! k.
Proof.
  revert st acc. induction infos as [|inf infos IH]; intros st acc; simpl.
  - intros [= <- _] _. reflexivity.
  - intros (acc1 & st2 & Hstep & Hrest)%bind_inv_ok [Hk Hks]%not_elem_of_cons.
    rewrite (IH _ _ Hrest Hks).
    apply saveAccount_inv_ok in Hstep as [[-> _] | [_ [cid ->]]]; [reflexivity|].
    apply lookup_insert_ne. exact (not_eq_sym Hk).
Qed.

(** What lines 207-237 leave: the ledger commit on the tree that
    [PatchTree] returned is stored, and it enters the transaction unless a
    previous ledger commit has the same tree. Without a previous commit the
    base of the patch is the empty tree. *)
Lemma saveExtCommit_inv_ok s oc acc st tr st1 :
  saveExtCommit s oc acc st = (Ok tr, st1) ->
  exists t base st2 st3,
    let parents := match oc with Some c => [commitHash c] | None => [] end in
    PatchTree base (fst acc) st2 = (Ok t, st3)
    /\ (oc = None -> Entries base = [])
    /\ objects st1 !! hashObj (ledgerCommit s t parents) = Some (ledgerCommit s t parents)
    /\ tr = match oc with
            | Some c =>
                if decide (TreeHash c = t) then snd acc
                else setUpdate extRefName (hashObj (ledgerCommit s t parents)) (snd acc)
            | None => setUpdate extRefName (hashObj (ledgerCommit s t parents)) (snd acc)
            end.
Proof.
  unfold saveExtCommit.
  intros (prev & st2 & Hprev & Hrun)%bind_inv_ok.
  apply bind_inv_ok in Hrun as (tid & st3 & Hpatch & Hrun).
  apply bind_inv_ok in Hrun as (cid & st4 & Hcommit & Hrun).
  apply SetEncodedObject_inv_ok in Hcommit as (-> & Hobjs & _).
  exists tid, prev, st2, st3.
  unfold Commit_Encode, ledgerCommit in *. simpl in *.
  assert (objects st1 = objects st4) as ->.
  { destruct oc; [destruct (decide _)|]; injection Hrun as _ <-; reflexivity. }
  split; [exact Hpatch|]. split.
  { intros ->. injection Hprev as <- _. reflexivity. }
  split.
  - rewrite Hobjs. apply lookup_insert_eq.
  - destruct oc; [destruct (decide _)|]; injection Hrun as <- _; reflexivity.
Qed.

Lemma saveAccountDetails_inv_ok now infos st :
  fst (saveAccountDetails now infos st) = Ok tt ->
  exists oc st2 acc st3 tr st4,
    referenceCommit extRefName st = (Ok oc, st2)
    /\ saveAccounts (newSig now) infos ([], {| updates := ∅ |}) st2 = (Ok acc, st3)
    /\ saveExtCommit (newSig now) oc acc st3 = (Ok tr, st4)
    /\ UpdateRepo tr st4 = (Ok tt, snd (saveAccountDetails now infos st)).
Proof.
  destruct (saveAccountDetails now infos st) as [[[]|e] st5] eqn:Hrun; [|discriminate].
  intros _. unfold saveAccountDetails in Hrun.
  apply bind_inv_ok in Hrun as (tr & st4 & Hbuild & Hupd).
  unfold buildTransaction in Hbuild.
  apply bind_inv_ok in Hbuild as (oc & st2 & Href & Hbuild).
  apply bind_inv_ok in Hbuild as (acc & st3 & Hacc & Hext).
  exists oc, st2, acc, st3, tr, st4. auto.
Qed.

Lemma ext_not_uidRefName (infos : list AccountInfo) : extRefName ∉ uidRefName <$> infos.
Proof.
  intros (inf & Heq & _)%list_elem_of_fmap.
  symmetry in Heq. exact (uidRefNameOf_not_ext _ Heq).
Qed.

Lemma first_run_build now :
  let s := newSig now in
  let commit := accountCommit s acct7 [] in
  let ledger := ledgerCommit s (hashObj (TreeObject [])) [] in
  buildTransaction now [acct7] empty_repo
  = (Ok (setUpdate extRefName (hashObj ledger)
          (setUpdate "refs/users/07/7" (hashObj commit) {| updates := ∅ |})),
     {| objects := <[hashObj ledger := ledger]>
                    (<[hashObj (TreeObject []) := TreeObject []]>
                      (<[hashObj commit := commit]>
                        (<[hashObj (accountTree acct7) := accountTree acct7]>
                          (<[hashObj (accountBlob acct7) := accountBlob acct7]> ∅))));
        refs := ∅; faults := [] |}).
Proof. vm_compute. reflexivity. Qed.

(** Scenario A: on an empty store, one account without identities gives
    its commit and a ledger commit on the empty tree, and both references
    are set. *)
Lemma first_run_scenario now :
  let s := newSig now in
  let first := saveAccountDetails now [acct7] empty_repo in
  let commit := accountCommit s acct7 [] in
  let ledger := ledgerCommit s (hashObj (TreeObject [])) [] in
  fst first = Ok tt
  /\ refs (snd first)
     = <[extRefName := hashObj ledger]> {["refs/users/07/7" := hashObj commit]}
  /\ objects (snd first)
     = <[hashObj ledger := ledger]>
         (<[hashObj (TreeObject []) := TreeObject []]>
           (<[hashObj commit := commit]>
             (<[hashObj (accountTree acct7) := accountTree acct7]>
               (<[hashObj (accountBlob acct7) := accountBlob acct7]> ∅)))).
Proof.
  intros s first commit ledger. unfold first, saveAccountDetails, bind.
  rewrite first_run_build. fold s commit ledger.
  set (tr := setUpdate extRefName _ _). set (stb := Build_Storer _ _ _).
  destruct (UpdateRepo_range_nofault (range_order (updates tr)) stb eq_refl) as [Hfst _].
  fold (UpdateRepo tr) in Hfst.
  pose proof (UpdateRepo_range_objects (range_order (updates tr)) stb) as Hobjs.
  fold (UpdateRepo tr) in Hobjs.
  destruct (UpdateRepo tr stb) as [r st1] eqn:Hupd. simpl in Hfst, Hobjs. subst r.
  simpl. split; [reflexivity|]. split; [|exact Hobjs].
  apply map_eq. intros k.
  destruct (UpdateRepo_ok_lookup _ _ _ k Hupd) as [Hset Hkeep].
  destruct (decide (k = extRefName)) as [->|Hext].
  { rewrite lookup_insert_eq. apply (Hset {| NewID := _ |}). apply lookup_insert_eq. }
  rewrite lookup_insert_ne by congruence.
  destruct (decide (k = "refs/users/07/7")) as [->|Huid].
  { rewrite lookup_singleton_eq. apply (Hset {| NewID := _ |}).
    unfold tr. simpl. rewrite lookup_insert_ne by discriminate. apply lookup_insert_eq. }
  rewrite lookup_singleton_ne by congruence.
  rewrite Hkeep; [reflexivity|].
  unfold tr. simpl. rewrite !lookup_insert_ne by congruence. apply lookup_empty.
Qed.

Lemma saveAccounts_keys s infos acc st res st1 k v :
  saveAccounts s infos acc st = (Ok res, st1) ->
  updates (snd res) !! k = Some v ->
  updates (snd acc) !! k = Some v \/ (is_Some v /\ k ∈ uidRefName <$> infos).
Proof.
  revert st acc. induction infos as [|inf infos IH]; intros st acc; simpl.
  - intros [= <- _] Hk. auto.
  - intros (acc1 & st2 & Hstep & Hrest)%bind_inv_ok Hk.
    destruct (IH _ _ Hrest Hk) as [Hk1 | [Hv Hin]].
    + apply saveAccount_inv_ok in Hstep as [[-> _] | [_ [cid Hset]]]; [auto|].
      rewrite Hset in Hk1. simpl in Hk1.
      apply lookup_insert_Some in Hk1 as [[<- <-]|[_ Hold]]; [|auto].
      right. split; [eauto | left].
    + right. split; [exact Hv | right; exact Hin].
Qed.

(** The transaction of a build holds no deletion, and no name but the
    ledger's and those of the accounts. *)
Lemma buildTransaction_keys now infos st tr st1 k v :
  buildTransaction now infos st = (Ok tr, st1) ->
  updates tr !! k = Some v ->
  is_Some v /\ (k = extRefName \/ k ∈ uidRefName <$> infos).
Proof.
  unfold buildTransaction.
  intros (oc & st2 & _ & Hbuild)%bind_inv_ok Hk.
  apply bind_inv_ok in Hbuild as (acc & st3 & Hacc & Hext).
  apply saveExtCommit_inv_ok in Hext as (t & base & st5 & st6 & _ & _ & _ & ->).
  assert (updates (snd acc) !! k = Some v ->
          is_Some v /\ (k = extRefName \/ k ∈ uidRefName <$> infos)) as Hacc1.
  { intros Hk1. destruct (saveAccounts_keys _ _ _ _ _ _ _ _ Hacc Hk1) as [Hk0 | [Hv Hin]]; [|auto].
    simpl in Hk0. rewrite lookup_empty in Hk0. discriminate. }
  assert (updates (setUpdate extRefName (hashObj (ledgerCommit (newSig now) t
            match oc with Some c => [commitHash c] | None => [] end)) (snd acc)) !! k = Some v ->
          is_Some v /\ (k = extRefName \/ k ∈ uidRefName <$> infos)) as Hset.
  { simpl. intros [[<- <-]|[_ Hold]]%lookup_insert_Some; [eauto | auto]. }
  destruct oc; [destruct (decide _)|]; auto.
Qed.

End Ledger.

(** ** Account commits *)

Section Accounts.
Context `{Platform}.
Hypothesis collision_free : Inj (=) (=) hashObj.

Lemma store_wf_objects st st1 : objects st1 = objects st -> store_wf st -> store_wf st1.
Proof. unfold store_wf. intros ->. auto. Qed.

Lemma grows_SetEncodedObject o st : grows st (snd (SetEncodedObject o st)).
Proof. apply (preserves_SetEncodedObject grows grows_faults (grows_store collision_free)). Qed.

Lemma grows_saveExtIDs accountID es ne st : grows st (snd (saveExtIDs accountID es ne st)).
Proof. apply (preserves_saveExtIDs grows grows_faults (grows_store collision_free)). Qed.

Lemma grows_saveAccount s inf acc st : grows st (snd (saveAccount s inf acc st)).
Proof. apply (preserves_saveAccount grows grows_faults (grows_store collision_free)). Qed.

Lemma grows_saveAccounts s infos acc st : grows st (snd (saveAccounts s infos acc st)).
Proof. apply (preserves_saveAccounts grows grows_faults (grows_store collision_free)). Qed.

Lemma grows_saveExtCommit s oc acc st : grows st (snd (saveExtCommit s oc acc st)).
Proof. apply (preserves_saveExtCommit grows grows_faults (grows_store collision_free)). Qed.

(** The commit that lines 163-184 save and enter in the transaction. *)
Lemma saveAccount_finish s inf acc parents st res st1 :
  store_wf st ->
  bind (SaveCommit {| commitHash := ZeroHash; Author := s; Committer := s;
                      Message := "update account"; TreeHash := hashObj (accountTree inf);
                      ParentHashes := parents |})
       (fun id => bind (saveExtIDs (AccountID (account inf)) (extIDs inf) (fst acc))
                  (fun newEntries => ret (newEntries, setUpdate (uidRefName inf) id (snd acc))))
       st = (Ok res, st1) ->
  updates (snd res) !! uidRefName inf
    = Some (Some {| NewID := hashObj (accountCommit s inf parents) |})
  /\ objects st1 !! hashObj (accountCommit s inf parents) = Some (accountCommit s inf parents).
Proof.
  intros Hwf (cid & st2 & Hcommit & Hrest)%bind_inv_ok.
  apply bind_inv_ok in Hrest as (ne & st3 & Hext & [= <- <-]).
  unfold SaveCommit in Hcommit.
  pose proof (grows_SetEncodedObject (accountCommit s inf parents) st Hwf) as [Hwf2 _].
  change (Commit_Encode _) with (accountCommit s inf parents) in Hcommit.
  rewrite Hcommit in Hwf2. simpl in Hwf2.
  apply SetEncodedObject_inv_ok in Hcommit as (-> & Hobjs & _).
  pose proof (grows_saveExtIDs (AccountID (account inf)) (extIDs inf) (fst acc) st2 Hwf2)
    as [_ Hsub].
  rewrite Hext in Hsub. simpl in Hsub. split.
  - simpl. apply lookup_insert_eq.
  - eapply lookup_weaken; [|exact Hsub]. rewrite Hobjs. apply lookup_insert_eq.
Qed.

(** One turn of the loop, from what the store held at its start. *)
Lemma saveAccount_rule s inf acc st res st1 :
  store_wf st ->
  saveAccount s inf acc st = (Ok res, st1) ->
  (forall h a c m t0 ps,
      refs st !! uidRefName inf = Some h ->
      objects st !! h = Some (CommitObject a c m t0 ps) ->
      (t0 = hashObj (accountTree inf) -> res = acc)
      /\ (t0 <> hashObj (accountTree inf) ->
          updates (snd res) !! uidRefName inf
            = Some (Some {| NewID := hashObj (accountCommit s inf [h]) |})
          /\ objects st1 !! hashObj (accountCommit s inf [h])
             = Some (accountCommit s inf [h])))
  /\ (refs st !! uidRefName inf = None ->
      updates (snd res) !! uidRefName inf
        = Some (Some {| NewID := hashObj (accountCommit s inf []) |})
      /\ objects st1 !! hashObj (accountCommit s inf []) = Some (accountCommit s inf [])).
Proof.
  intros Hwf Hrun. unfold saveAccount in Hrun.
  apply bind_inv_ok in Hrun as (bid & st2 & Hblob & Hrun).
  apply bind_inv_ok in Hrun as (tid & st3 & Htree & Hrun).
  apply bind_inv_ok in Hrun as (old & st4 & Hold & Hrun).
  pose proof (grows_SetEncodedObject (accountBlob inf) st Hwf) as [Hwf2 Hsub2].
  unfold SaveConfig, SaveBlob in Hblob. fold (accountBlob inf) in Hblob.
  rewrite Hblob in Hwf2, Hsub2. simpl in Hwf2, Hsub2.
  apply SetEncodedObject_inv_ok in Hblob as (-> & _ & Hr2).
  pose proof (grows_SetEncodedObject (accountTree inf) st2 Hwf2) as [Hwf3 Hsub3].
  change (SaveTree _) with (SetEncodedObject (accountTree inf)) in Htree.
  rewrite Htree in Hwf3, Hsub3. simpl in Hwf3, Hsub3.
  apply SetEncodedObject_inv_ok in Htree as (-> & _ & Hr3).
  apply referenceCommit_inv in Hold as (Ho4 & Hr4 & Hold).
  rewrite Hr3, Hr2 in Hold.
  assert (store_wf st4) as Hwf4 by (eapply store_wf_objects; eassumption).
  fold (uidRefName inf) in Hrun, Hold.
  split.
  - intros h a c m t0 ps Href Hobj.
    destruct old as [old|]; [|congruence].
    destruct Hold as [Hh Hread].
    assert (commitHash old = h) as Hc by congruence.
    assert (objects st3 !! h = Some (CommitObject a c m t0 ps)) as Hobj3.
    { eapply lookup_weaken; [|exact Hsub3]. eapply lookup_weaken; [|exact Hsub2]. exact Hobj. }
    rewrite Hc, Hobj3 in Hread.
    assert (TreeHash old = t0) as Ht by (injection Hread; congruence).
    rewrite Hc, Ht in Hrun. split.
    + intros Heq. rewrite decide_True in Hrun by exact Heq.
      injection Hrun as <- _. reflexivity.
    + intros Hne. rewrite decide_False in Hrun by exact Hne.
      eapply saveAccount_finish; eassumption.
  - intros Hnone. destruct old as [old|]; [destruct Hold; congruence|].
    eapply saveAccount_finish; eassumption.
Qed.

Lemma saveAccount_other_name s inf acc st res st1 k :
  saveAccount s inf acc st = (Ok res, st1) ->
  k <> uidRefName inf ->
  updates (snd res) !! k = updates (snd acc) !! k.
Proof.
  intros [[-> _] | [_ [cid ->]]]%saveAccount_inv_ok Hk; [reflexivity|].
  apply lookup_insert_ne. exact (not_eq_sym Hk).
Qed.

(** The whole loop, for an account whose reference name occurs once in the
    batch. *)
Lemma saveAccounts_rule s infos acc st res st1 inf :
  store_wf st ->
  saveAccounts s infos acc st = (Ok res, st1) ->
  NoDup (uidRefName <$> infos) ->
  inf ∈ infos ->
  (forall h a c m t0 ps,
      refs st !! uidRefName inf = Some h ->
      objects st !! h = Some (CommitObject a c m t0 ps) ->
      (t0 = hashObj (accountTree inf) ->
       updates (snd res) !! uidRefName inf = updates (snd acc) !! uidRefName inf)
      /\ (t0 <> hashObj (accountTree inf) ->
          updates (snd res) !! uidRefName inf
            = Some (Some {| NewID := hashObj (accountCommit s inf [h]) |})
          /\ objects st1 !! hashObj (accountCommit s inf [h])
             = Some (accountCommit s inf [h])))
  /\ (refs st !! uidRefName inf = None ->
      updates (snd res) !! uidRefName inf
        = Some (Some {| NewID := hashObj (accountCommit s inf []) |})
      /\ objects st1 !! hashObj (accountCommit s inf []) = Some (accountCommit s inf [])).
Proof.
  revert st acc. induction infos as [|inf0 infos IH]; intros st acc Hwf Hrun Hnd Hin.
  { inversion Hin. }
  simpl in Hrun. apply bind_inv_ok in Hrun as (acc1 & st2 & Hstep & Hrest).
  rewrite fmap_cons in Hnd. apply NoDup_cons in Hnd as [Hname0 Hnd].
  pose proof (grows_saveAccount s inf0 acc st Hwf) as [Hwf2 Hsub2].
  pose proof (keeps_refs_saveAccount s inf0 acc st) as Hrefs2.
  rewrite Hstep in Hwf2, Hsub2, Hrefs2. simpl in Hwf2, Hsub2, Hrefs2.
  pose proof (grows_saveAccounts s infos acc1 st2 Hwf2) as [_ Hsub1].
  rewrite Hrest in Hsub1. simpl in Hsub1.
  apply elem_of_cons in Hin as [->|Hin].
  - pose proof (saveAccounts_other_names _ _ _ _ _ _ _ Hrest Hname0) as Hother.
    destruct (saveAccount_rule s inf0 acc st acc1 st2 Hwf Hstep) as [Hsome Hnone].
    split.
    + intros h a c m t0 ps Href Hobj.
      destruct (Hsome h a c m t0 ps Href Hobj) as [Heq Hne]. split.
      * intros E. rewrite Hother, (Heq E). reflexivity.
      * intros E. destruct (Hne E) as [Hu Ho].
        split; [rewrite Hother; exact Hu | eapply lookup_weaken; eassumption].
    + intros E. destruct (Hnone E) as [Hu Ho].
      split; [rewrite Hother; exact Hu | eapply lookup_weaken; eassumption].
  - assert (uidRefName inf <> uidRefName inf0) as Hne0.
    { intros Heq. apply Hname0. rewrite <- Heq. apply list_elem_of_fmap_2, Hin. }
    pose proof (saveAccount_other_name _ _ _ _ _ _ _ Hstep Hne0) as Hacc1.
    destruct (IH st2 acc1 Hwf2 Hrest Hnd Hin) as [Hsome Hnone].
    rewrite Hrefs2 in Hsome, Hnone. split.
    + intros h a c m t0 ps Href Hobj.
      destruct (Hsome h a c m t0 ps Href (lookup_weaken _ _ _ _ Hobj Hsub2)) as [Heq Hne].
      split; [intros E; rewrite (Heq E); exact Hacc1 | exact Hne].
    + exact Hnone.
Qed.

Lemma SetEncodedObject_cases o st :
  exists r st1,
    SetEncodedObject o st = (r, st1) /\ refs st1 = refs st
    /\ ((r = Err (ErrIO OpSetEncodedObject) /\ objects st1 = objects st)
        \/ (r = Ok (hashObj o) /\ objects st1 = <[hashObj o := o]> (objects st))).
Proof.
  unfold SetEncodedObject, storer_call.
  destruct (faults st) as [|[] fs]; eexists _, _; (split; [reflexivity|]); simpl; auto.
Qed.

Lemma referenceCommit_objects name st :
  objects (snd (referenceCommit name st)) = objects st.
Proof.
  unfold referenceCommit.
  destruct (Reference name st) as [[h|e] st1] eqn:E; apply Reference_inv in E as (Ho & _).
  - unfold bind, Repository_CommitObject, bind.
    assert (objects (snd (EncodedObject h st1)) = objects st1) as Hget.
    { unfold EncodedObject, storer_call.
      destruct (faults st1) as [|[] fs]; simpl; try destruct (objects st1 !! h); reflexivity. }
    destruct (EncodedObject h st1) as [[o|e] st2]; simpl in Hget; [destruct o|]; simpl; congruence.
  - destruct e; simpl; assumption.
Qed.

Lemma no_new_commits_insert (m : gmap N Obj) k o1 :
  is_commit o1 = false ->
  forall h o, is_commit o = true -> <[k := o1]> m !! h = Some o -> m !! h = Some o.
Proof.
  intros Hnot h o Hc [[<- <-]|[_ Hold]]%lookup_insert_Some; [congruence | exact Hold].
Qed.

(** A turn of the loop for an account whose reference holds a commit on
    the tree the account has now: whatever the outcome, no commit is
    written; and if the turn goes through, the entries and the transaction
    are as before. *)
Lemma saveAccount_skip s inf acc st h a c m ps :
  refs st !! uidRefName inf = Some h ->
  objects st !! h = Some (CommitObject a c m (hashObj (accountTree inf)) ps) ->
  no_new_commits st (snd (saveAccount s inf acc st))
  /\ (forall res, fst (saveAccount s inf acc st) = Ok res -> res = acc).
Proof.
  intros Href Hobj. unfold saveAccount, bind.
  change (SaveConfig _) with (SetEncodedObject (accountBlob inf)).
  destruct (SetEncodedObject_cases (accountBlob inf) st)
    as (r2 & st2 & -> & Hr2 & [[-> Ho2] | [-> Ho2]]); simpl.
  { split; [|discriminate]. intros h1 o1 _. rewrite Ho2. auto. }
  change (SaveTree _) with (SetEncodedObject (accountTree inf)).
  destruct (SetEncodedObject_cases (accountTree inf) st2)
    as (r3 & st3 & -> & Hr3 & [[-> Ho3] | [-> Ho3]]); simpl.
  { split; [|discriminate]. intros h1 o1 Hc. rewrite Ho3, Ho2.
    apply no_new_commits_insert; [reflexivity | exact Hc]. }
  assert (no_new_commits st st3) as Hnew.
  { intros h1 o1 Hc H1. rewrite Ho3, Ho2 in H1.
    apply no_new_commits_insert in H1; [|reflexivity | exact Hc].
    apply no_new_commits_insert in H1; [exact H1 | reflexivity | exact Hc]. }
  pose proof (referenceCommit_objects (uidRefName inf) st3) as Ho4.
  fold (uidRefName inf).
  destruct (referenceCommit (uidRefName inf) st3) as [[old|e] st4] eqn:Hold; simpl in Ho4.
  2: { simpl. split; [|discriminate]. intros h1 o1 Hc. rewrite Ho4. apply Hnew, Hc. }
  apply referenceCommit_inv in Hold as (_ & _ & Hold).
  rewrite Hr3, Hr2, Href in Hold.
  destruct old as [old|]; [|discriminate].
  destruct Hold as [[= <-] Hread].
  apply Hnew in Hread; [|reflexivity].
  rewrite Hobj in Hread. 
  assert (TreeHash old = hashObj (accountTree inf)) as -> by (injection Hread; congruence).
  rewrite decide_True by reflexivity. simpl.
  split; [|intros res [= <-]; reflexivity].
  intros h1 o1 Hc. rewrite Ho4. apply Hnew, Hc.
Qed.

(** C4: over a collision-free hash and a store that keeps every object
    under its own hash, in a run that went through, for an account whose
    reference name occurs once in the batch. If its reference held a commit
    on the tree the account has now, the reference stays, and the account's
    turn of the loop, from any store with that reference and commit, writes
    no commit and leaves the entries and the transaction as they are. On
    another tree, a commit whose sole parent is the old one is stored and
    the reference holds its hash. Without a reference, the commit has no
    parent. *)
Theorem account_commit_rule (now : Z) (infos : list AccountInfo) (st : Storer)
    (inf : AccountInfo) :
  store_wf st ->
  fst (saveAccountDetails now infos st) = Ok tt ->
  NoDup (uidRefName <$> infos) ->
  inf ∈ infos ->
  let s := newSig now in
  let st1 := snd (saveAccountDetails now infos st) in
  (forall h a c m t0 ps,
      refs st !! uidRefName inf = Some h ->
      objects st !! h = Some (CommitObject a c m t0 ps) ->
      (t0 = hashObj (accountTree inf) ->
       refs st1 !! uidRefName inf = Some h
       /\ forall acc st0,
            refs st0 !! uidRefName inf = Some h ->
            objects st0 !! h = Some (CommitObject a c m t0 ps) ->
            no_new_commits st0 (snd (saveAccount s inf acc st0))
            /\ forall res, fst (saveAccount s inf acc st0) = Ok res -> res = acc)
      /\ (t0 <> hashObj (accountTree inf) ->
          refs st1 !! uidRefName inf = Some (hashObj (accountCommit s inf [h]))
          /\ objects st1 !! hashObj (accountCommit s inf [h])
             = Some (accountCommit s inf [h])))
  /\ (refs st !! uidRefName inf = None ->
      refs st1 !! uidRefName inf = Some (hashObj (accountCommit s inf []))
      /\ objects st1 !! hashObj (accountCommit s inf []) = Some (accountCommit s inf [])).
Proof.
  intros Hwf Hok Hnd Hin s st1.
  destruct (saveAccountDetails_inv_ok _ _ _ Hok)
    as (oc & st2 & acc & st3 & tr & st4 & Href & Hacc & Hext & Hupd).
  fold st1 in Hupd. fold s in Hacc, Hext.
  apply referenceCommit_inv in Href as (Ho2 & Hr2 & _).
  assert (store_wf st2) as Hwf2 by (eapply store_wf_objects; eassumption).
  destruct (saveAccounts_rule s infos _ st2 acc st3 inf Hwf2 Hacc Hnd Hin) as [Hsome Hnone].
  rewrite Hr2 in Hsome, Hnone. rewrite Ho2 in Hsome.
  pose proof (grows_saveAccounts s infos ([], {| updates := ∅ |}) st2 Hwf2) as [Hwf3 _].
  rewrite Hacc in Hwf3. simpl in Hwf3.
  pose proof (grows_saveExtCommit s oc acc st3 Hwf3) as [_ Hsub4].
  pose proof (keeps_refs_saveExtCommit s oc acc st3) as Hr4.
  pose proof (keeps_refs_saveAccounts s infos ([], {| updates := ∅ |}) st2) as Hr3.
  rewrite Hext in Hsub4, Hr4. rewrite Hacc in Hr3. simpl in Hsub4, Hr4, Hr3.
  assert (updates tr !! uidRefName inf = updates (snd acc) !! uidRefName inf) as Htr.
  { apply saveExtCommit_inv_ok in Hext as (t & base & st5 & st6 & _ & _ & _ & ->).
    pose proof (uidRefNameOf_not_ext (AccountID (account inf))) as Hne.
    fold (uidRefName inf) in Hne.
    destruct oc; [destruct (decide _)|]; simpl; try reflexivity;
      apply lookup_insert_ne; congruence. }
  pose proof (UpdateRepo_range_objects (range_order (updates tr)) st4) as Ho1.
  fold (UpdateRepo tr) in Ho1. rewrite Hupd in Ho1. simpl in Ho1.
  destruct (UpdateRepo_ok_lookup _ _ _ (uidRefName inf) Hupd) as [Hset Hkeep].
  assert (forall parents,
             updates (snd acc) !! uidRefName inf
               = Some (Some {| NewID := hashObj (accountCommit s inf parents) |}) /\
             objects st3 !! hashObj (accountCommit s inf parents)
               = Some (accountCommit s inf parents) ->
             refs st1 !! uidRefName inf = Some (hashObj (accountCommit s inf parents)) /\
             objects st1 !! hashObj (accountCommit s inf parents)
               = Some (accountCommit s inf parents)) as Hdone.
  { intros parents [Hu Ho]. split.
    - apply (Hset {| NewID := _ |}). rewrite Htr. exact Hu.
    - rewrite Ho1. eapply lookup_weaken; eassumption. }
  split.
  - intros h a c m t0 ps Hrefh Hobj.
    destruct (Hsome h a c m t0 ps Hrefh Hobj) as [Heq Hne]. split.
    + intros E. split.
      * rewrite Hkeep; [rewrite Hr4, Hr3, Hr2; exact Hrefh|].
        rewrite Htr, (Heq E). apply lookup_empty.
      * intros acc0 st0 Href0 Hobj0. subst t0. eapply saveAccount_skip; eassumption.
    + intros E. apply Hdone, Hne, E.
  - intros E. apply Hdone, Hnone, E.
Qed.

Lemma saveAccountDetails_wf now infos st :
  store_wf st -> store_wf (snd (saveAccountDetails now infos st)).
Proof.
  intros Hwf. unfold saveAccountDetails, bind.
  pose proof (preserves_buildTransaction grows grows_faults (grows_store collision_free)
                now infos st Hwf) as [Hwf1 _].
  destruct (buildTransaction now infos st) as [[tr|e] st1]; simpl in *; [|exact Hwf1].
  eapply store_wf_objects; [|exact Hwf1].
  apply UpdateRepo_range_objects.
Qed.

End Accounts.

Lemma ideal_hash_inj : Inj (=) (=) (@hashObj ideal).
Proof. intros o1 o2 [= Heq]. apply (inj encode), Heq. Qed.

Lemma empty_repo_wf `{Platform} : store_wf empty_repo.
Proof. intros h o Hlook. simpl in Hlook. rewrite lookup_empty in Hlook. discriminate. Qed.

Lemma after_first_run_wf : store_wf after_first_run.
Proof. apply saveAccountDetails_wf; [exact ideal_hash_inj | exact empty_repo_wf]. Qed.

(** Scenario C: account 7 changes its email after a first run. *)
Lemma account_commit_rule_witness :
  let old := accountCommit (newSig 1000) acct7 [] in
  let new := accountCommit (newSig 2000) acct7_new_email [hashObj old] in
  let st1 := snd (saveAccountDetails 2000 [acct7_new_email] after_first_run) in
  refs st1 !! uidRefName acct7_new_email = Some (hashObj new)
  /\ objects st1 !! hashObj new = Some new.
Proof.
  intros old new st1.
  assert (fst (saveAccountDetails 2000 [acct7_new_email] after_first_run) = Ok tt) as Hok
    by (vm_compute; reflexivity).
  assert (NoDup (uidRefName <$> [acct7_new_email])) as Hnd by apply NoDup_singleton.
  assert (acct7_new_email ∈ [acct7_new_email]) as Hin by apply list_elem_of_here.
  destruct (account_commit_rule ideal_hash_inj 2000 [acct7_new_email] after_first_run
              acct7_new_email after_first_run_wf Hok Hnd Hin) as [Hsome _].
  assert (refs after_first_run !! uidRefName acct7_new_email = Some (hashObj old)) as Href
    by (vm_compute; reflexivity).
  assert (objects after_first_run !! hashObj old = Some old) as Hobj
    by (vm_compute; reflexivity).
  destruct (Hsome _ _ _ _ _ _ Href Hobj) as [_ Hne].
  apply Hne. vm_compute. discriminate.
Defined.

(** ** The tree patcher in a run *)

Section LedgerRun.
Context `{Platform}.
Hypothesis collision_free : Inj (=) (=) hashObj.

(** One turn of the loop appends the entries of its account unless the
    account passes the test of lines 170-173, read in any store that holds
    the objects the turn leaves. *)
Lemma saveAccount_batch s inf acc st res st1 os :
  store_wf st ->
  saveAccount s inf acc st = (Ok res, st1) ->
  objects st1 ⊆ os ->
  fst res = fst acc ++ (if unchanged (refs st) os inf then [] else extIDEntries inf).
Proof.
  intros Hwf Hrun Hos.
  unfold saveAccount in Hrun.
  apply bind_inv_ok in Hrun as (bid & st2 & Hblob & Hrun).
  apply bind_inv_ok in Hrun as (tid & st3 & Htree & Hrun).
  apply bind_inv_ok in Hrun as (old & st4 & Hold & Hrun).
  pose proof (grows_SetEncodedObject collision_free (accountBlob inf) st Hwf) as [Hwf2 _].
  unfold SaveConfig, SaveBlob in Hblob. fold (accountBlob inf) in Hblob.
  rewrite Hblob in Hwf2. simpl in Hwf2.
  apply SetEncodedObject_inv_ok in Hblob as (-> & Ho2 & Hr2).
  pose proof (grows_SetEncodedObject collision_free (accountTree inf) st2 Hwf2) as [Hwf3 _].
  change (SaveTree _) with (SetEncodedObject (accountTree inf)) in Htree.
  rewrite Htree in Hwf3. simpl in Hwf3.
  apply SetEncodedObject_inv_ok in Htree as (-> & Ho3 & Hr3).
  apply referenceCommit_inv in Hold as (Ho4 & Hr4 & Hold).
  rewrite Hr3, Hr2 in Hold.
  assert (store_wf st4) as Hwf4 by (eapply store_wf_objects; eassumption).
  fold (uidRefName inf) in Hrun, Hold.
  assert (forall c, bind (SaveCommit c) (fun id =>
            bind (saveExtIDs (AccountID (account inf)) (extIDs inf) (fst acc))
              (fun newEntries => ret (newEntries, setUpdate (uidRefName inf) id (snd acc))))
            st4 = (Ok res, st1) ->
          fst res = fst acc ++ extIDEntries inf /\ objects st4 ⊆ objects st1) as Hfin.
  { intros c Hc.
    apply bind_inv_ok in Hc as (cid & st5 & Hc & Hc2).
    apply bind_inv_ok in Hc2 as (ne & st6 & He & [= <- <-]).
    unfold SaveCommit in Hc.
    pose proof (grows_SetEncodedObject collision_free (Commit_Encode c) st4 Hwf4) as [Hwf5 Hs5].
    rewrite Hc in Hwf5, Hs5. simpl in Hwf5, Hs5.
    pose proof (grows_saveExtIDs collision_free (AccountID (account inf)) (extIDs inf)
                  (fst acc) st5 Hwf5) as [_ Hs6].
    rewrite He in Hs6. simpl in Hs6.
    apply saveExtIDs_inv_ok in He as ->.
    split; [reflexivity | etransitivity; eassumption]. }
  unfold unchanged.
  destruct old as [old|].
  - destruct Hold as [Href Hread]. rewrite Href.
    assert (objects st4 ⊆ objects st1) as Hsub.
    { destruct (decide (TreeHash old = _)); [injection Hrun as _ <-; reflexivity|].
      eapply Hfin, Hrun. }
    assert (os !! commitHash old = Some (Commit_Encode old)) as ->.
    { eapply lookup_weaken; [|exact Hos]. eapply lookup_weaken; [|exact Hsub].
      rewrite Ho4. exact Hread. }
    unfold Commit_Encode.
    destruct (decide (TreeHash old = hashObj (accountTree inf))) as [Heq|Hne].
    + rewrite bool_decide_eq_true_2 by exact Heq. injection Hrun as <- _.
      symmetry. apply app_nil_r.
    + rewrite bool_decide_eq_false_2 by exact Hne. eapply Hfin, Hrun.
  - rewrite Hold. eapply Hfin, Hrun.
Qed.

Lemma saveAccounts_batch_exact s infos acc st res st1 os :
  store_wf st ->
  saveAccounts s infos acc st = (Ok res, st1) ->
  objects st1 ⊆ os ->
  fst res = fst acc ++ batch (refs st) os infos.
Proof.
  revert st acc. induction infos as [|inf infos IH]; intros st acc Hwf Hrun Hos; simpl.
  - injection Hrun as <- _. symmetry. apply app_nil_r.
  - simpl in Hrun. apply bind_inv_ok in Hrun as (acc1 & st2 & Hstep & Hrest).
    pose proof (grows_saveAccount collision_free s inf acc st Hwf) as [Hwf2 _].
    pose proof (keeps_refs_saveAccount s inf acc st) as Hrefs2.
    rewrite Hstep in Hwf2, Hrefs2. simpl in Hwf2, Hrefs2.
    pose proof (grows_saveAccounts collision_free s infos acc1 st2 Hwf2) as [_ Hsub].
    rewrite Hrest in Hsub. simpl in Hsub.
    rewrite (IH st2 acc1 Hwf2 Hrest Hos), Hrefs2.
    rewrite (saveAccount_batch s inf acc st acc1 st2 os Hwf Hstep) by (etransitivity; eassumption).
    unfold batch. rewrite <- app_assoc. reflexivity.
Qed.

(** A run that went through, step by step: the tree patcher was handed the
    tree of the previous ledger commit (the empty tree without one) and
    the batch of this run. *)
Lemma saveAccountDetails_patch now infos st :
  store_wf st ->
  fst (saveAccountDetails now infos st) = Ok tt ->
  let s := newSig now in
  let st1 := snd (saveAccountDetails now infos st) in
  let upd := batch (refs st) (objects st1) infos in
  exists oc base t st2 st3,
    let parents := match oc with Some c => [commitHash c] | None => [] end in
    PatchTree base upd st2 = (Ok t, st3)
    /\ match oc with
       | None => refs st !! extRefName = None
                 /\ base = {| treeHash := ZeroHash; Entries := [] |}
       | Some c => refs st !! extRefName = Some (commitHash c)
                   /\ objects st !! commitHash c = Some (Commit_Encode c)
                   /\ treeHash base = TreeHash c
                   /\ objects st1 !! TreeHash c = Some (TreeObject (Entries base))
       end
    /\ objects st1 !! hashObj (ledgerCommit s t parents) = Some (ledgerCommit s t parents)
    /\ refs st1 !! extRefName
       = match oc with
         | Some c => if decide (TreeHash c = t) then Some (commitHash c)
                     else Some (hashObj (ledgerCommit s t parents))
         | None => Some (hashObj (ledgerCommit s t parents))
         end.
Proof.
  intros Hwf Hok s st1 upd.
  destruct (saveAccountDetails_inv_ok _ _ _ Hok)
    as (oc & st2 & acc & st3 & tr & st4 & Href & Hacc & Hext & Hupd).
  fold st1 in Hupd. fold s in Hacc, Hext.
  apply referenceCommit_inv in Href as (Ho2 & Hr2 & Hold).
  assert (store_wf st2) as Hwf2 by (eapply store_wf_objects; eassumption).
  pose proof (grows_saveAccounts collision_free s infos ([], {| updates := ∅ |}) st2 Hwf2)
    as [Hwf3 _].
  rewrite Hacc in Hwf3. simpl in Hwf3.
  pose proof (grows_saveExtCommit collision_free s oc acc st3 Hwf3) as [_ Hsub4].
  pose proof (keeps_refs_saveExtCommit s oc acc st3) as Hr4.
  pose proof (keeps_refs_saveAccounts s infos ([], {| updates := ∅ |}) st2) as Hr3.
  rewrite Hext in Hsub4, Hr4. rewrite Hacc in Hr3. simpl in Hsub4, Hr4, Hr3.
  pose proof (UpdateRepo_range_objects (range_order (updates tr)) st4) as Ho1.
  fold (UpdateRepo tr) in Ho1. rewrite Hupd in Ho1. simpl in Ho1.
  assert (fst acc = upd) as Hbatch.
  { unfold upd. rewrite <- Hr2.
    apply (saveAccounts_batch_exact s infos ([], {| updates := ∅ |}) st2 acc st3 _ Hwf2 Hacc).
    rewrite Ho1. exact Hsub4. }
  pose proof (saveAccounts_other_names _ _ _ _ _ _ extRefName Hacc (ext_not_uidRefName infos))
    as Hnone.
  simpl in Hnone. rewrite lookup_empty in Hnone.
  destruct (UpdateRepo_ok_lookup _ _ _ extRefName Hupd) as [Hset Hkeep].
  unfold saveExtCommit in Hext.
  apply bind_inv_ok in Hext as (base & st5 & Hprev & Hext).
  apply bind_inv_ok in Hext as (t & st6 & Hpatch & Hext).
  apply bind_inv_ok in Hext as (cid & st7 & Hcommit & Hext).
  simpl in Hext.
  assert (objects st7 = objects st4) as Ho7.
  { destruct oc; [destruct (decide _)|]; injection Hext as _ <-; reflexivity. }
  assert (tr = match oc with
               | Some c => if decide (TreeHash c = t) then snd acc
                           else setUpdate extRefName cid (snd acc)
               | None => setUpdate extRefName cid (snd acc)
               end) as Htr.
  { destruct oc; [destruct (decide _)|]; injection Hext as <- _; reflexivity. }
  apply SetEncodedObject_inv_ok in Hcommit as (-> & Hobjs & _).
  unfold Commit_Encode in *. simpl in *.
  rewrite Hbatch in Hpatch.
  exists oc, base, t, st5, st6. split; [exact Hpatch|].
  split.
  { destruct oc as [c|].
    - destruct Hold as [Hrefc Hobjc]. split; [exact Hrefc|]. split; [exact Hobjc|].
      unfold Repository_TreeObject in Hprev.
      apply bind_inv_ok in Hprev as (o & st8 & Hread & Hprev).
      apply EncodedObject_inv_ok in Hread as (Hread & _ & _).
      destruct o; try discriminate. injection Hprev as <- _. simpl.
      split; [reflexivity|]. rewrite Ho1. eapply lookup_weaken; [exact Hread | exact Hsub4].
    - split; [exact Hold|]. injection Hprev as <- _. reflexivity. }
  split.
  { rewrite Ho1, <- Ho7, Hobjs. apply lookup_insert_eq. }
  destruct oc as [c|].
  - destruct Hold as [Hrefc _]. destruct (decide (TreeHash c = t)).
    + subst tr. rewrite Hkeep by exact Hnone. rewrite Hr4, Hr3, Hr2. exact Hrefc.
    + subst tr. apply (Hset {| NewID := _ |}). apply lookup_insert_eq.
  - subst tr. apply (Hset {| NewID := _ |}). apply lookup_insert_eq.
Qed.

(** C1, as the code has it, over a collision-free hash and a store that
    keeps every object under its own hash. In a run that goes through, the
    tree patcher is handed the tree of the previous ledger commit (the
    empty tree when there is none) and the entries this run collected;
    [t] is the tree it returns. The objects of before are all in the store
    the run leaves, where the commits of the accounts and the previous tree
    are looked up. Without a previous ledger commit the ledger reference is set
    to the ledger commit on [t], which has no parent. With one, the
    reference stays when [t] is the previous commit's tree, and otherwise
    is set to the ledger commit on [t], whose sole parent is the previous
    commit. In particular, on an empty store one account without identities
    gives its commit and a ledger commit on the empty tree, and both
    references are set. *)
Theorem ledger_reference_rule (now : Z) (infos : list AccountInfo) (st : Storer) :
  store_wf st ->
  fst (saveAccountDetails now infos st) = Ok tt ->
  let s := newSig now in
  (let st1 := snd (saveAccountDetails now infos st) in
   let upd := batch (refs st) (objects st1) infos in
   exists base t st2 st3,
     PatchTree base upd st2 = (Ok t, st3)
     /\ match refs st !! extRefName with
        | None =>
            base = {| treeHash := ZeroHash; Entries := [] |}
            /\ refs st1 !! extRefName = Some (hashObj (ledgerCommit s t []))
            /\ objects st1 !! hashObj (ledgerCommit s t []) = Some (ledgerCommit s t [])
        | Some h =>
            exists a c m ps,
              objects st !! h = Some (CommitObject a c m (treeHash base) ps)
              /\ objects st1 !! treeHash base = Some (TreeObject (Entries base))
              /\ if decide (treeHash base = t) then refs st1 !! extRefName = Some h
                 else refs st1 !! extRefName = Some (hashObj (ledgerCommit s t [h]))
                      /\ objects st1 !! hashObj (ledgerCommit s t [h])
                         = Some (ledgerCommit s t [h])
        end)
  /\ (let first := saveAccountDetails now [acct7] empty_repo in
      let commit := accountCommit s acct7 [] in
      let ledger := ledgerCommit s (hashObj (TreeObject [])) [] in
      fst first = Ok tt
      /\ refs (snd first)
         = <[extRefName := hashObj ledger]> {["refs/users/07/7" := hashObj commit]}
      /\ objects (snd first)
         = <[hashObj ledger := ledger]>
             (<[hashObj (TreeObject []) := TreeObject []]>
               (<[hashObj commit := commit]>
                 (<[hashObj (accountTree acct7) := accountTree acct7]>
                   (<[hashObj (accountBlob acct7) := accountBlob acct7]> ∅))))).
Proof.
  intros Hwf Hok s. split; [|apply first_run_scenario].
  intros st1 upd.
  destruct (saveAccountDetails_patch now infos st Hwf Hok)
    as (oc & base & t & st2 & st3 & Hpatch & Hprev & Hstored & Href).
  fold s st1 upd in Hpatch, Hprev, Hstored, Href.
  exists base, t, st2, st3. split; [exact Hpatch|].
  destruct oc as [c|].
  - destruct Hprev as (Hrefc & Hobjc & Hbase & Htree). rewrite Hrefc.
    exists (Author c), (Committer c), (Message c), (ParentHashes c).
    rewrite Hbase. split; [exact Hobjc|]. split; [exact Htree|].
    destruct (decide (TreeHash c = t)); [exact Href | split; [exact Href | exact Hstored]].
  - destruct Hprev as [-> ->]. auto.
Qed.


End LedgerRun.

Lemma after_identity_run_wf : store_wf after_identity_run.
Proof. apply saveAccountDetails_wf; [exact ideal_hash_inj | exact empty_repo_wf]. Qed.

(** A second run, over account 7 as before and account 8 with an identity,
    on a store whose ledger tree holds the entry of account 7: account 7 is
    skipped, the entry of account 8 is patched into the previous tree, and
    the ledger reference moves to a commit whose parent is the previous
    one. *)
Lemma ledger_reference_rule_witness :
  let infos := [acct7_with_identity; acct8_with_identity] in
  let s := newSig 2000 in
  (let st1 := snd (saveAccountDetails 2000 infos after_identity_run) in
   let upd := batch (refs after_identity_run) (objects st1) infos in
   exists base t st2 st3,
     PatchTree base upd st2 = (Ok t, st3)
     /\ match refs after_identity_run !! extRefName with
        | None =>
            base = {| treeHash := ZeroHash; Entries := [] |}
            /\ refs st1 !! extRefName = Some (hashObj (ledgerCommit s t []))
            /\ objects st1 !! hashObj (ledgerCommit s t []) = Some (ledgerCommit s t [])
        | Some h =>
            exists a c m ps,
              objects after_identity_run !! h = Some (CommitObject a c m (treeHash base) ps)
              /\ objects st1 !! treeHash base = Some (TreeObject (Entries base))
              /\ if decide (treeHash base = t) then refs st1 !! extRefName = Some h
                 else refs st1 !! extRefName = Some (hashObj (ledgerCommit s t [h]))
                      /\ objects st1 !! hashObj (ledgerCommit s t [h])
                         = Some (ledgerCommit s t [h])
        end)
  /\ (let first := saveAccountDetails 2000 [acct7] empty_repo in
      let commit := accountCommit s acct7 [] in
      let ledger := ledgerCommit s (hashObj (TreeObject [])) [] in
      fst first = Ok tt
      /\ refs (snd first)
         = <[extRefName := hashObj ledger]> {["refs/users/07/7" := hashObj commit]}
      /\ objects (snd first)
         = <[hashObj ledger := ledger]>
             (<[hashObj (TreeObject []) := TreeObject []]>
               (<[hashObj commit := commit]>
                 (<[hashObj (accountTree acct7) := accountTree acct7]>
                   (<[hashObj (accountBlob acct7) := accountBlob acct7]> ∅))))).
Proof.
  intros infos.
  apply (ledger_reference_rule ideal_hash_inj 2000 infos after_identity_run).
  - exact after_identity_run_wf.
  - vm_compute. reflexivity.
Defined.

(** On that input the batch is the entry of account 8 alone, the previous
    tree holds the entry of account 7, and the reference has moved. *)
Example ledger_reference_moves :
  let infos := [acct7_with_identity; acct8_with_identity] in
  let st1 := snd (saveAccountDetails 2000 infos after_identity_run) in
  entryName <$> batch (refs after_identity_run) (objects st1) infos
  = [ "31a1f7182a2eca01db3295c6b8ce4ab2feded4d3" ]
  /\ option_map (map entryName) (ledgerEntries after_identity_run)
     = Some [ "50c83b2329e35ecfadf291e88dc3b6b12421869b" ]
  /\ option_map (map entryName) (ledgerEntries st1)
     = Some [ "31a1f7182a2eca01db3295c6b8ce4ab2feded4d3";
              "50c83b2329e35ecfadf291e88dc3b6b12421869b" ].
Proof. repeat split; vm_compute; reflexivity. Qed.


(** The same two accounts in the other input order: the batch descends, the
    patcher refuses it, and no reference is set. *)
Example unsorted_batch_is_refused :
  let r := saveAccountDetails 1000 [acct7_with_identity; acct8_with_identity] empty_repo in
  fst r = Err PreconditionViolation /\ refs (snd r) = ∅.
Proof. split; vm_compute; reflexivity. Qed.

(** ** Failing calls are reported *)

Ltac join_scripts H1 H2 :=
  rewrite H1, H2, replicate_add, <- app_assoc; reflexivity.

Section Reports.
Context `{Platform}.

Lemma reports_ret {A} (a : A) : reports (ret a).
Proof. intros st. exists 0%nat. reflexivity. Qed.

Lemma reports_fail {A} e : (forall op, e <> ErrIO op) -> reports (@fail A e).
Proof.
  intros He st. exists 0%nat. simpl. destruct e; try reflexivity.
  destruct (He op). reflexivity.
Qed.

Lemma reports_bind {A B} (m : M A) (k : A -> M B) :
  reports m -> (forall a, reports (k a)) -> reports (bind m k).
Proof.
  intros Hm Hk st. destruct (Hm st) as [k1 H1]. unfold bind.
  destruct (m st) as [[a|e] st1]; simpl in *.
  - destruct (Hk a st1) as [k2 H2]. exists (k1 + k2)%nat.
    destruct (fst (k a st1)) as [b|[]]; join_scripts H1 H2.
  - exists k1. exact H1.
Qed.

Lemma reports_call {A} op (body : M A) :
  (forall st, faults (snd (body st)) = faults st) ->
  (forall st op', fst (body st) <> Err (ErrIO op')) ->
  reports (storer_call op body).
Proof.
  intros Hf Hr st. unfold storer_call.
  assert (forall st0, match fst (body st0) with
                      | Err (ErrIO _) => False
                      | _ => True
                      end) as Hno.
  { intros st0. specialize (Hr st0). destruct (fst (body st0)) as [a|[]]; try exact I.
    destruct (Hr op0). reflexivity. }
  destruct (faults st) as [|[] fs] eqn:E.
  - exists 0%nat. specialize (Hno st). rewrite <- E, <- Hf.
    destruct (fst (body st)) as [a|[]]; try reflexivity. contradiction.
  - exists 0%nat. reflexivity.
  - exists 1%nat. specialize (Hno (with_faults fs st)).
    rewrite Hf. destruct (fst (body (with_faults fs st))) as [a|[]]; try reflexivity.
    contradiction.
Qed.

Lemma reports_SetEncodedObject o : reports (SetEncodedObject o).
Proof. apply reports_call; intros; simpl; [reflexivity | discriminate]. Qed.

Lemma reports_EncodedObject h : reports (EncodedObject h).
Proof.
  apply reports_call; intros st; simpl; destruct (objects st !! h); try reflexivity;
    intros; discriminate.
Qed.

Lemma reports_SetReference name h : reports (SetReference name h).
Proof. apply reports_call; intros; simpl; [reflexivity | discriminate]. Qed.

Lemma reports_Reference name : reports (Reference name).
Proof.
  apply reports_call; intros st; simpl; destruct (refs st !! name); try reflexivity;
    intros; discriminate.
Qed.

Lemma reports_CommitObject h : reports (Repository_CommitObject h).
Proof.
  unfold Repository_CommitObject. apply reports_bind; [apply reports_EncodedObject|].
  intros []; first [apply reports_ret | apply reports_fail; discriminate].
Qed.

Lemma reports_TreeObject h : reports (Repository_TreeObject h).
Proof.
  unfold Repository_TreeObject. apply reports_bind; [apply reports_EncodedObject|].
  intros []; first [apply reports_ret | apply reports_fail; discriminate].
Qed.

Lemma reports_referenceCommit name : reports (referenceCommit name).
Proof.
  intros st. unfold referenceCommit.
  destruct (reports_Reference name st) as [k1 H1].
  destruct (Reference name st) as [[h|e] st1]; simpl in *.
  - pose proof (reports_bind (Repository_CommitObject h) (fun c => ret (Some c))
                  (reports_CommitObject h) (fun c => reports_ret _) st1) as [k2 H2].
    exists (k1 + k2)%nat.
    destruct (fst (bind (Repository_CommitObject h) (fun c => ret (Some c)) st1)) as [b|[]];
      join_scripts H1 H2.
  - exists k1. destruct e; exact H1.
Qed.

Lemma reports_saveExtIDs accountID es newEntries : reports (saveExtIDs accountID es newEntries).
Proof.
  revert newEntries. induction es as [|e es IH]; intros newEntries; simpl.
  - apply reports_ret.
  - apply reports_bind; [apply reports_SetEncodedObject | intros; apply IH].
Qed.

Lemma reports_saveAccount s inf acc : reports (saveAccount s inf acc).
Proof.
  unfold saveAccount.
  apply reports_bind; [apply reports_SetEncodedObject | intros id].
  apply reports_bind; [apply reports_SetEncodedObject | intros tid].
  apply reports_bind; [apply reports_referenceCommit | intros old].
  assert (forall c, reports (bind (SaveCommit c) (fun id0 =>
            bind (saveExtIDs (AccountID (account inf)) (extIDs inf) (fst acc))
              (fun newEntries => ret (newEntries,
                 setUpdate (uidRefNameOf (AccountID (account inf))) id0 (snd acc)))))) as Hfin.
  { intros c. apply reports_bind; [apply reports_SetEncodedObject | intros].
    apply reports_bind; [apply reports_saveExtIDs | intros; apply reports_ret]. }
  destruct old as [old|]; [destruct (decide _)|]; [apply reports_ret | apply Hfin | apply Hfin].
Qed.

Lemma reports_saveAccounts s infos acc : reports (saveAccounts s infos acc).
Proof.
  revert acc. induction infos as [|inf infos IH]; intros acc; simpl.
  - apply reports_ret.
  - apply reports_bind; [apply reports_saveAccount | intros; apply IH].
Qed.

Lemma reports_PatchTree base upd : reports (PatchTree base upd).
Proof.
  unfold PatchTree. destruct (decide _);
    [apply reports_SetEncodedObject | apply reports_fail; discriminate].
Qed.

Lemma reports_saveExtCommit s oc acc : reports (saveExtCommit s oc acc).
Proof.
  unfold saveExtCommit.
  apply reports_bind; [destruct oc; [apply reports_TreeObject | apply reports_ret] | intros prev].
  apply reports_bind; [apply reports_PatchTree | intros tid].
  apply reports_bind; [apply reports_SetEncodedObject | intros cid].
  destruct oc; [destruct (decide _)|]; apply reports_ret.
Qed.

Lemma reports_buildTransaction now infos : reports (buildTransaction now infos).
Proof.
  unfold buildTransaction.
  apply reports_bind; [apply reports_referenceCommit | intros oc].
  apply reports_bind; [apply reports_saveAccounts | intros acc].
  apply reports_saveExtCommit.
Qed.

(** Without a deletion among its entries, [UpdateRepo] reports as well. *)
Lemma reports_UpdateRepo_range l st :
  (forall k v, (k, v) ∈ l -> is_Some v) ->
  exists k : nat,
    match fst (UpdateRepo_range l st) with
    | Err (ErrIO _) => faults st = replicate k false ++ true :: faults (snd (UpdateRepo_range l st))
    | _ => faults st = replicate k false ++ faults (snd (UpdateRepo_range l st))
    end.
Proof.
  revert st. induction l as [|[name [u|]] l IH]; intros st Hall.
  - exists 0%nat. reflexivity.
  - simpl. unfold bind.
    destruct (reports_SetReference name (NewID u) st) as [k1 H1].
    destruct (SetReference name (NewID u) st) as [[[]|e] st1]; simpl in *.
    + destruct (IH st1) as [k2 H2].
      { intros k v Hin. apply (Hall k). right. exact Hin. }
      exists (k1 + k2)%nat.
      destruct (fst (UpdateRepo_range l st1)) as [b|[]]; join_scripts H1 H2.
    + exists k1. exact H1.
  - destruct (Hall name None) as [u Hu]; [left | discriminate].
Qed.

Lemma reports_saveAccountDetails now infos : reports (saveAccountDetails now infos).
Proof.
  intros st. unfold saveAccountDetails, bind.
  destruct (reports_buildTransaction now infos st) as [k1 H1].
  destruct (buildTransaction now infos st) as [[tr|e] st1] eqn:Hbuild; simpl in *.
  - destruct (reports_UpdateRepo_range (range_order (updates tr)) st1) as [k2 H2].
    { intros k v Hin. apply elem_of_range_order in Hin.
      eapply buildTransaction_keys; eassumption. }
    exists (k1 + k2)%nat. unfold UpdateRepo.
    destruct (fst (UpdateRepo_range (range_order (updates tr)) st1)) as [b|[]];
      join_scripts H1 H2.
  - exists k1. exact H1.
Qed.

Lemma replicate_false_true (k n : nat) (l1 l2 : list bool) :
  replicate k false ++ true :: l1 = replicate n false ++ true :: l2 -> l1 = l2.
Proof.
  revert n. induction k as [|k IH]; intros [|n]; simpl; try discriminate.
  - intros [= ->]. reflexivity.
  - intros [= Heq]. eapply IH, Heq.
Qed.

Lemma replicate_false_prefix (k n : nat) (l1 l2 : list bool) :
  replicate k false ++ l1 = replicate n false ++ true :: l2 ->
  exists m : nat, l1 = replicate m false ++ true :: l2.
Proof.
  revert n. induction k as [|k IH]; intros n; simpl.
  - intros ->. eauto.
  - destruct n as [|n]; simpl; [discriminate|]. intros [= Heq]. eapply IH, Heq.
Qed.

(** C8: on a store whose call number [n + 1] is the first to fail, either
    the run ends before it makes that call, or that call ends the run:
    [saveAccountDetails] returns the I/O error of a call, and either the
    build returned it - then the transaction was not applied and the
    references are as before - or the build went through and the call
    that failed is a [SetReference] of [UpdateRepo]. The write of a blob, a
    tree or a commit is a call of the build. *)
Theorem object_write_failure_keeps_refs (now : Z) (infos : list AccountInfo) (st : Storer)
    (n : nat) (fs : list bool) :
  faults st = replicate n false ++ true :: fs ->
  let r := saveAccountDetails now infos st in
  (exists m : nat, faults (snd r) = replicate m false ++ true :: fs)
  \/ (faults (snd r) = fs
      /\ exists op,
           fst r = Err (ErrIO op)
           /\ ((buildTransaction now infos st = (Err (ErrIO op), snd r)
                /\ refs (snd r) = refs st)
               \/ (op = OpSetReference
                   /\ exists tr, fst (buildTransaction now infos st) = Ok tr))).
Proof.
  intros Hf r. destruct (reports_saveAccountDetails now infos st) as [k Hk].
  fold r in Hk. rewrite Hf in Hk.
  assert (forall op, fst r = Err (ErrIO op) ->
            (buildTransaction now infos st = (Err (ErrIO op), snd r)
             /\ refs (snd r) = refs st)
            \/ (op = OpSetReference
                /\ exists tr, fst (buildTransaction now infos st) = Ok tr)) as Hbuild.
  { subst r. unfold saveAccountDetails, bind.
    pose proof (keeps_refs_buildTransaction now infos st) as Hrefs.
    destruct (buildTransaction now infos st) as [[trans|e] st1]; simpl in *.
    - intros op He. apply UpdateRepo_range_err in He. right. split; [congruence | eauto].
    - intros op [= ->]. left. auto. }
  destruct (fst r) as [[]|e] eqn:Hr.
  - left. symmetry in Hk. eapply replicate_false_prefix, Hk.
  - destruct e; try (left; symmetry in Hk; eapply replicate_false_prefix, Hk).
    right. symmetry in Hk. apply replicate_false_true in Hk. split; [exact Hk|].
    exists op. split; [reflexivity|]. apply Hbuild. reflexivity.
Qed.
End Reports.

(** Account 7 on an empty store whose fifth call fails: the write of the
    account's commit. *)
Lemma object_write_failure_keeps_refs_witness :
  let st := with_script [false; false; false; false; true] in
  let r := saveAccountDetails 1000 [acct7] st in
  (fst r = Err (ErrIO OpSetEncodedObject) /\ refs (snd r) = refs st)
  /\ ((exists m : nat, faults (snd r) = replicate m false ++ true :: [])
      \/ (faults (snd r) = []
          /\ exists op,
               fst r = Err (ErrIO op)
               /\ ((buildTransaction 1000 [acct7] st = (Err (ErrIO op), snd r)
                    /\ refs (snd r) = refs st)
                   \/ (op = OpSetReference
                       /\ exists tr, fst (buildTransaction 1000 [acct7] st) = Ok tr)))).
Proof.
  intros st r. split.
  - split; vm_compute; reflexivity.
  - apply (object_write_failure_keeps_refs 1000 [acct7] st 4 []). reflexivity.
Defined.

(** * Further properties of the program *)

(** ** Fetching *)

(** X1: [getAccountDetails] returns neither a record nor an error exactly
    when the reply to the details request has status 404, whatever else the
    client returned with it. *)
Theorem getAccountDetails_not_found_iff (cl : Client) (id : string) :
  getAccountDetails cl id = Some (None, None)
  <-> exists details reply err,
        GetAccountDetails cl id = (details, Some reply, err) /\ StatusCode reply = 404.
Proof.
  unfold getAccountDetails.
  destruct (GetAccountDetails cl id) as [[details reply] err].
  split.
  - destruct reply as [r|]; simpl.
    + destruct (StatusCode r =? 404) eqn:E; [intros _; exists details, r, err; split; [reflexivity | lia]|].
      destruct err; [discriminate|].
      destruct (GetAccountExternalIDs cl id) as [[ids r2] [e|]]; [discriminate|].
      destruct details; discriminate.
    + destruct err; [discriminate|].
      destruct (GetAccountExternalIDs cl id) as [[ids r2] [e|]]; [discriminate|].
      destruct details; discriminate.
  - intros (d & r & e & [= -> -> ->] & Hstatus). simpl.
    rewrite (proj2 (Z.eqb_eq _ _) Hstatus). reflexivity.
Qed.

(** X2: when [getAccountDetails] returns a record, it returns no error, and
    the record holds the details and the external ids that the two requests
    returned without error. *)
Theorem getAccountDetails_found (cl : Client) (id : string) (val : AccountInfo)
    (err : option error) :
  getAccountDetails cl id = Some (Some val, err) ->
  err = None
  /\ exists reply reply2,
       GetAccountDetails cl id = (Some (account val), reply, None)
       /\ GetAccountExternalIDs cl id = (extIDs val, reply2, None).
Proof.
  unfold getAccountDetails.
  destruct (GetAccountDetails cl id) as [[details reply] e].
  destruct (match reply with Some r => StatusCode r =? 404 | None => false end); [discriminate|].
  destruct e; [discriminate|].
  destruct (GetAccountExternalIDs cl id) as [[ids r2] [e2|]]; [discriminate|].
  destruct details; [|discriminate].
  intros [= <- <-]. simpl. eauto.
Qed.

Lemma getAccountDetails_found_witness :
  @None error = None
  /\ exists reply reply2,
       GetAccountDetails client_demo "7"
         = (Some (account acct7_with_identity), reply, @None error)
       /\ GetAccountExternalIDs client_demo "7"
          = (extIDs acct7_with_identity, reply2, @None error).
Proof.
  apply (getAccountDetails_found client_demo "7" acct7_with_identity None).
  reflexivity.
Defined.

Lemma fetchAccounts_app cl ids1 ids2 infos :
  fetchAccounts cl (ids1 ++ ids2) infos
  = match fetchAccounts cl ids1 infos with
    | inl e => inl e
    | inr infos1 => fetchAccounts cl ids2 infos1
    end.
Proof.
  revert infos. induction ids1 as [|id ids1 IH]; intros infos; simpl; [reflexivity|].
  destruct (getAccountDetails cl id) as [[[val|] [err|]]|]; auto.
Qed.

(** X3: if no request makes [getAccountDetails] dereference nil details,
    the loop of [main] ends with the records of the ids that gave one, in
    the order of the arguments, after the records it started with. *)
Theorem fetchAccounts_in_order (cl : Client) (ids : list string) (infos : list AccountInfo) :
  Forall (fun id => is_Some (getAccountDetails cl id)) ids ->
  fetchAccounts cl ids infos = inr (infos ++ omap (fetched cl) ids).
Proof.
  revert infos. induction ids as [|id ids IH]; intros infos Hall; simpl.
  - rewrite app_nil_r. reflexivity.
  - apply Forall_cons in Hall as [[r Hr] Hall]. unfold fetched. rewrite Hr.
    destruct r as [[val|] err].
    + pose proof (getAccountDetails_value_or_error _ _ _ _ Hr) as ->.
      rewrite IH by assumption. rewrite <- app_assoc. reflexivity.
    + apply IH, Hall.
Qed.

Lemma fetchAccounts_in_order_witness :
  fetchAccounts client_demo ["99"; "7"; "8"] []
  = inr ([] ++ omap (fetched client_demo) ["99"; "7"; "8"]).
Proof.
  apply (fetchAccounts_in_order client_demo ["99"; "7"; "8"] []).
  repeat constructor; eexists; reflexivity.
Defined.

Lemma syncAccounts_skips_not_found `{Platform} cl now ids1 ids2 id st :
  getAccountDetails cl id = Some (None, None) ->
  syncAccounts cl now (ids1 ++ id :: ids2) st = syncAccounts cl now (ids1 ++ ids2) st.
Proof.
  intros Hid. unfold syncAccounts. rewrite !fetchAccounts_app.
  destruct (fetchAccounts cl ids1 []) as [e|infos1]; [reflexivity|].
  simpl. rewrite Hid. reflexivity.
Qed.

(** What happens before the loop does not depend on which ids are given,
    as long as there is one. *)
Lemma front_end_args w fl ids1 ids2 :
  ids1 <> [] -> ids2 <> [] ->
  front_end w (with_args ids1 fl) = front_end w (with_args ids2 fl).
Proof.
  intros H1 H2. unfold front_end. simpl.
  destruct ids1; [contradiction|]. destruct ids2; [contradiction|]. reflexivity.
Qed.

(** X4: an id for which [getAccountDetails] reports not found can be taken
    out of the arguments, wherever it stands, without a change to what
    [main] does, as long as another argument is left. *)
Theorem main_skips_not_found `{Platform} (w : World) (now : Z) (fl : Flags)
    (ids1 ids2 : list string) (id : string) (st : Storer) :
  ids1 ++ ids2 <> [] ->
  (forall cl, front_end w (with_args (ids1 ++ id :: ids2) fl) = inr cl ->
              getAccountDetails cl id = Some (None, None)) ->
  main w now (with_args (ids1 ++ id :: ids2) fl) st
  = main w now (with_args (ids1 ++ ids2) fl) st.
Proof.
  intros Hne Hid. unfold main.
  rewrite <- (front_end_args w fl (ids1 ++ id :: ids2) (ids1 ++ ids2));
    [|destruct ids1; discriminate | exact Hne].
  destruct (front_end w (with_args (ids1 ++ id :: ids2) fl)) as [e|cl] eqn:Hfront;
    [reflexivity|].
  simpl. apply syncAccounts_skips_not_found, Hid. reflexivity.
Qed.

Lemma main_skips_not_found_witness :
  main (world_of server_demo) 1000 (with_args (["7"] ++ "99" :: []) (flags_of [])) empty_repo
  = main (world_of server_demo) 1000 (with_args (["7"] ++ []) (flags_of [])) empty_repo.
Proof.
  apply (main_skips_not_found (world_of server_demo) 1000 (flags_of []) ["7"] [] "99" empty_repo).
  - discriminate.
  - intros cl [= <-]. reflexivity.
Defined.

(** X5: [main] ends with the fatal report of an error either before the
    loop over the ids, or when accounts were fetched and saving them
    failed, with the error of [saveAccountDetails]; the loop itself never
    ends the program with an error. *)
Theorem main_fatal_only_from_save `{Platform} (w : World) (now : Z)
    (fl : Flags) (st : Storer) (e : error) :
  fst (main w now fl st) = Fatal e
  <-> front_end w fl = inl (Fatal e)
      \/ exists cl infos,
           front_end w fl = inr cl
           /\ fetchAccounts cl (Args fl) [] = inr infos
           /\ infos <> []
           /\ fst (saveAccountDetails now infos st) = Err e.
Proof.
  unfold main. destruct (front_end w fl) as [ex|cl] eqn:Hfront.
  { simpl. split.
    - intros ->. left. reflexivity.
    - intros [[= ->] | (cl & infos & [=] & _)]. reflexivity. }
  unfold syncAccounts.
  destruct (fetchAccounts cl (Args fl) []) as [ex|infos] eqn:Hfetch.
  - split.
    + simpl. intros ->. destruct (fetchAccounts_never_fatal _ _ _ _ Hfetch).
    + intros [[=] | (cl' & infos & [= <-] & Hf & _)]. rewrite Hfetch in Hf. discriminate.
  - destruct infos as [|inf infos]; simpl.
    + split; [discriminate|].
      intros [[=] | (cl' & infos & [= <-] & Hf & Hne & _)].
      rewrite Hfetch in Hf. injection Hf as <-. contradiction.
    + destruct (saveAccountDetails now (inf :: infos) st) as [[[]|e'] st'] eqn:Hsave; simpl.
      * split; [discriminate|].
        intros [[=] | (cl' & infos' & [= <-] & Hf & _ & Herr)].
        rewrite Hfetch in Hf. injection Hf as <-. rewrite Hsave in Herr. discriminate.
      * split.
        -- intros [= ->]. right. exists cl, (inf :: infos).
           rewrite Hsave. split; [reflexivity|]. split; [exact Hfetch|].
           split; [discriminate | reflexivity].
        -- intros [[=] | (cl' & infos' & [= <-] & Hf & _ & Herr)].
           rewrite Hfetch in Hf. injection Hf as <-. rewrite Hsave in Herr.
           simpl in Herr. congruence.
Qed.

(** ** Authentication *)

Lemma Split_cons s sep : exists f fs, Split s sep = f :: fs.
Proof.
  induction s as [|c s IH]; simpl; [eauto|].
  destruct (decide (c = sep)); [eauto|].
  destruct IH as (f & fs & ->). eauto.
Qed.

(** The first field holds no separator; the fields after it are those of
    what follows the first separator. *)
Lemma Split_inv s sep f fs :
  Split s sep = f :: fs ->
  Contains f sep = false
  /\ match fs with
     | [] => s = f
     | _ => exists rest, s = f +:+ String sep rest /\ Split rest sep = fs
     end.
Proof.
  revert f fs. induction s as [|c s IH]; intros f fs; simpl.
  - intros [= <- <-]. auto.
  - destruct (decide (c = sep)) as [->|Hne].
    + intros [= <- <-]. split; [reflexivity|].
      destruct (Split_cons s sep) as (f1 & fs1 & E). rewrite E.
      exists s. split; [reflexivity | exact E].
    + destruct (Split_cons s sep) as (f1 & fs1 & E). rewrite E.
      intros [= <- <-]. destruct (IH _ _ E) as [Hc Hs]. split.
      * simpl. destruct (decide (c = sep)); [contradiction | exact Hc].
      * destruct fs1; [congruence|].
        destruct Hs as (rest & -> & Hrest). exists rest. auto.
Qed.

Lemma Split_app s1 s2 sep :
  Contains s1 sep = false ->
  Split (s1 +:+ String sep s2) sep = s1 :: Split s2 sep.
Proof.
  induction s1 as [|c s1 IH]; simpl.
  - intros _. destruct (decide (sep = sep)); [reflexivity | contradiction].
  - destruct (decide (c = sep)); [discriminate|].
    intros Hc. rewrite IH by exact Hc. reflexivity.
Qed.

Lemma Split_none s sep : Contains s sep = false -> Split s sep = [s].
Proof.
  induction s as [|c s IH]; simpl; [reflexivity|].
  destruct (decide (c = sep)); [discriminate|].
  intros Hc. rewrite IH by exact Hc. reflexivity.
Qed.

Lemma Split_single s sep f : Split s sep = [f] -> Contains s sep = false.
Proof. intros E. apply Split_inv in E as [Hc ->]. exact Hc. Qed.

(** X6: the program crashes while it sets up authentication exactly when
    [--basic] has a value that is not empty and holds no colon; the value
    of [--cookie] plays no part in it. *)
Theorem authentication_panics_iff (basicAuth cookieAuth : string) :
  authentication basicAuth cookieAuth = None
  <-> basicAuth <> "" /\ Contains basicAuth ":" = false.
Proof.
  unfold authentication. destruct (decide (basicAuth <> "")) as [Hne|He].
  - destruct (Split basicAuth ":") as [|f0 [|f1 fs]] eqn:E.
    + destruct (Split_cons basicAuth ":") as (f & fs & E'). congruence.
    + apply Split_single in E. tauto.
    + split; [discriminate|]. intros [_ Hc]. rewrite (Split_none _ _ Hc) in E. discriminate.
  - destruct (decide (cookieAuth <> "")); split; try discriminate; tauto.
Qed.

(** X7: basic authentication is chosen exactly for a [--basic] value with a
    colon, whatever [--cookie] holds: the user is what stands before the
    first colon, the password what stands between the first colon and the
    second, and what follows a second colon is dropped. *)
Theorem authentication_basic_iff (basicAuth cookieAuth user password : string) :
  authentication basicAuth cookieAuth = Some (AuthBasic user password)
  <-> Contains user ":" = false /\ Contains password ":" = false
      /\ (basicAuth = user +:+ ":" +:+ password
          \/ exists rest, basicAuth = user +:+ ":" +:+ password +:+ ":" +:+ rest).
Proof.
  unfold authentication. split.
  - destruct (decide (basicAuth <> "")) as [Hne|He].
    2: { destruct (decide (cookieAuth <> "")); discriminate. }
    destruct (Split basicAuth ":") as [|f0 [|f1 fs]] eqn:E; try discriminate.
    intros [= -> ->].
    apply Split_inv in E as [Hu (rest & -> & E)].
    apply Split_inv in E as [Hp Hrest].
    split; [exact Hu|]. split; [exact Hp|].
    destruct fs as [|f2 fs].
    + left. subst rest. reflexivity.
    + right. destruct Hrest as (rest2 & -> & _). exists rest2. reflexivity.
  - intros (Hu & Hp & Hb).
    assert (basicAuth <> "") as Hne.
    { destruct Hb as [-> | [rest ->]]; destruct user; discriminate. }
    destruct (decide (basicAuth <> "")); [|contradiction].
    destruct Hb as [-> | [rest ->]].
    + change (user +:+ ":" +:+ password) with (user +:+ String ":" password).
      rewrite Split_app by exact Hu. rewrite Split_none by exact Hp. reflexivity.
    + change (user +:+ ":" +:+ password +:+ ":" +:+ rest)
        with (user +:+ String ":" (password +:+ String ":" rest)).
      rewrite Split_app by exact Hu. rewrite Split_app by exact Hp. reflexivity.
Qed.

(** ** Reference names of accounts *)

Lemma app_sep_inj sep s1 t1 s2 t2 :
  Contains s1 sep = false -> Contains s2 sep = false ->
  s1 +:+ String sep t1 = s2 +:+ String sep t2 -> s1 = s2 /\ t1 = t2.
Proof.
  revert s2. induction s1 as [|c1 s1 IH]; intros [|c2 s2]; simpl.
  - intros _ _ [= ->]. auto.
  - destruct (decide (c2 = sep)); [discriminate|]. intros _ _ [= Hc _]. congruence.
  - destruct (decide (c1 = sep)); [discriminate|]. intros _ _ [= Hc _]. congruence.
  - destruct (decide (c1 = sep)); [discriminate|].
    destruct (decide (c2 = sep)); [discriminate|].
    intros H1 H2 [= -> Heq]. destruct (IH _ H1 H2 Heq) as [-> ->]. auto.
Qed.

Lemma Sprintf_02d_no_slash r :
  -100 < r < 100 -> Contains (Sprintf_02d r) "/" = false.
Proof.
  intros Hr.
  assert (forallb (fun n => negb (Contains (Sprintf_02d (Z.of_nat n - 99)) "/")) (seq 0 199)
          = true) as Hall by (vm_compute; reflexivity).
  rewrite forallb_forall in Hall.
  specialize (Hall (Z.to_nat (r + 99))).
  replace (Z.of_nat (Z.to_nat (r + 99)) - 99) with r in Hall by lia.
  apply negb_true_iff, Hall, in_seq. lia.
Qed.

(** X8: two account ids with the same reference name are the same id, so
    accounts with different ids never share a reference. *)
Theorem uidRefNameOf_inj : Inj (=) (=) uidRefNameOf.
Proof.
  intros a b Heq. unfold uidRefNameOf in Heq. simpl in Heq.
  injection Heq as Heq.
  apply app_sep_inj in Heq as [_ Heq].
  - apply (inj pretty), Heq.
  - apply Sprintf_02d_no_slash.
    pose proof (Z.rem_bound_abs a 100). lia.
  - apply Sprintf_02d_no_slash.
    pose proof (Z.rem_bound_abs b 100). lia.
Qed.

Lemma string_append_assoc (s1 s2 s3 : string) : (s1 +:+ s2) +:+ s3 = s1 +:+ s2 +:+ s3.
Proof.
  induction s1 as [|c s1 IH]; [reflexivity|].
  change (String c ((s1 +:+ s2) +:+ s3) = String c (s1 +:+ s2 +:+ s3)).
  f_equal. exact IH.
Qed.

Lemma pretty_N_go_suffix x s : exists p, pretty_N_go x s = p +:+ s.
Proof.
  revert s. induction (N.lt_wf_0 x) as [x _ IH]. intros s.
  destruct (decide (0 < x)%N) as [Hpos|Hz].
  - rewrite pretty_N_go_step by exact Hpos.
    destruct (IH (x `div` 10)%N (N.div_lt x 10 Hpos eq_refl)
                (String (pretty_N_char (x `mod` 10)) s)) as [p ->].
    exists (p +:+ String (pretty_N_char (x `mod` 10)) "").
    rewrite string_append_assoc. reflexivity.
  - replace x with 0%N by lia. exists "". reflexivity.
Qed.

Lemma Sprintf_02d_digits (r : N) :
  (r < 100)%N ->
  Sprintf_02d (Z.of_N r)
  = String (pretty_N_char (r `div` 10)) (String (pretty_N_char (r `mod` 10)) "").
Proof.
  intros Hr.
  assert (forallb (fun n =>
            bool_decide (Sprintf_02d (Z.of_N (N.of_nat n))
              = String (pretty_N_char (N.of_nat n `div` 10))
                  (String (pretty_N_char (N.of_nat n `mod` 10)) "")))
            (seq 0 100) = true) as Hall by (vm_compute; reflexivity).
  rewrite forallb_forall in Hall.
  specialize (Hall (N.to_nat r)). rewrite N2Nat.id in Hall.
  apply (bool_decide_eq_true_1 _), Hall, in_seq. lia.
Qed.

Lemma pretty_Z_of_N (n : N) : pretty (Z.of_N n) = pretty n.
Proof. destruct n; reflexivity. Qed.

Lemma pretty_N_last_two (n : N) :
  exists p, "0" +:+ pretty n
            = p +:+ String (pretty_N_char ((n `div` 10) `mod` 10))
                      (String (pretty_N_char (n `mod` 10)) "").
Proof.
  unfold pretty at 1, pretty_N. destruct (decide (n = 0)%N) as [->|Hn0].
  { exists "". reflexivity. }
  rewrite pretty_N_go_step by lia.
  destruct (decide (0 < n `div` 10)%N) as [Hpos|Hz].
  - rewrite pretty_N_go_step by exact Hpos.
    destruct (pretty_N_go_suffix ((n `div` 10) `div` 10)%N
                (String (pretty_N_char ((n `div` 10) `mod` 10))
                   (String (pretty_N_char (n `mod` 10)) ""))) as [p ->].
    exists ("0" +:+ p). reflexivity.
  - apply N.nlt_ge, N.le_0_r in Hz. rewrite Hz. exists "". reflexivity.
Qed.

Lemma mod_100_div_10 (n : N) : ((n `mod` 100) `div` 10 = (n `div` 10) `mod` 10)%N.
Proof.
  change 100%N with (10 * 10)%N. rewrite N.Div0.mod_mul_r.
  rewrite (N.mul_comm 10 ((n `div` 10) `mod` 10)), N.div_add by discriminate.
  rewrite N.div_small by (apply N.mod_lt; discriminate). reflexivity.
Qed.

Lemma mod_100_mod_10 (n : N) : ((n `mod` 100) `mod` 10 = n `mod` 10)%N.
Proof.
  change 100%N with (10 * 10)%N. rewrite N.Div0.mod_mul_r.
  rewrite (N.mul_comm 10 ((n `div` 10) `mod` 10)), N.Div0.mod_add.
  apply N.Div0.mod_mod.
Qed.

(** X9: the directory of a non-negative account id under [refs/users/] has
    two characters, the last two of the id written in decimal with a zero
    before it. *)
Theorem uidRefNameOf_shard (id : Z) :
  0 <= id ->
  exists shard p,
    uidRefNameOf id = "refs/users/" +:+ shard +:+ "/" +:+ pretty id
    /\ String.length shard = 2%nat
    /\ "0" +:+ pretty id = p +:+ shard.
Proof.
  intros Hid. unfold uidRefNameOf.
  rewrite Z.rem_mod_nonneg by lia.
  replace id with (Z.of_N (Z.to_N id)) by lia.
  set (n := Z.to_N id).
  replace (Z.of_N n `mod` 100) with (Z.of_N (n `mod` 100)) by (rewrite N2Z.inj_mod; reflexivity).
  rewrite Sprintf_02d_digits by (apply N.mod_lt; discriminate).
  rewrite mod_100_div_10, mod_100_mod_10.
  destruct (pretty_N_last_two n) as [p Hp].
  eexists _, p. split; [reflexivity|]. split; [reflexivity|].
  rewrite pretty_Z_of_N. exact Hp.
Qed.

Lemma uidRefNameOf_shard_witness :
  exists shard p,
    uidRefNameOf 1000007 = "refs/users/" +:+ shard +:+ "/" +:+ pretty 1000007
    /\ String.length shard = 2%nat
    /\ "0" +:+ pretty 1000007 = p +:+ shard.
Proof. apply (uidRefNameOf_shard 1000007). lia. Defined.

(** ** Saving and reading back *)

(** X10: a commit that [SaveCommit] stored is read back by
    [repo.CommitObject] under the id returned, field by field; the hash the
    caller had put into the commit is not used. *)
Theorem SaveCommit_round_trip `{Platform} (c : Commit) (st : Storer) (h : N) :
  fst (SaveCommit c st) = Ok h ->
  faults (snd (SaveCommit c st)) = [] ->
  Repository_CommitObject h (snd (SaveCommit c st))
  = (Ok {| commitHash := h; Author := Author c; Committer := Committer c;
           Message := Message c; TreeHash := TreeHash c;
           ParentHashes := ParentHashes c |},
     snd (SaveCommit c st)).
Proof.
  intros Hok Hf.
  destruct (SaveCommit c st) as [r st1] eqn:Hsave. simpl in *. subst r.
  unfold SaveCommit in Hsave.
  apply SetEncodedObject_inv_ok in Hsave as (-> & Hobjs & _).
  unfold Repository_CommitObject, bind, EncodedObject, storer_call.
  rewrite Hf, Hobjs, lookup_insert_eq. reflexivity.
Qed.

Lemma SaveCommit_round_trip_witness :
  let h := hashObj (Commit_Encode commit_demo) in
  Repository_CommitObject h (snd (SaveCommit commit_demo empty_repo))
  = (Ok {| commitHash := h; Author := newSig 1000; Committer := newSig 1000;
           Message := "update"; TreeHash := 5%N; ParentHashes := [11%N] |},
     snd (SaveCommit commit_demo empty_repo)).
Proof.
  intros h.
  apply (SaveCommit_round_trip commit_demo empty_repo h); reflexivity.
Defined.

(** ** What a transaction does to the references *)

Section UpdateRepoMore.
Context `{Platform}.

(** Whatever the outcome, a name outside the entries is as before. *)
Lemma UpdateRepo_range_frame l st k :
  k ∉ l.*1 -> refs (snd (UpdateRepo_range l st)) !! k = refs st !! k.
Proof.
  revert st. induction l as [|[name [u|]] l IH]; intros st Hk; simpl in *.
  - reflexivity.
  - apply not_elem_of_cons in Hk as [Hne Hk]. unfold bind.
    destruct (SetReference name (NewID u) st) as [[[]|e] st1] eqn:E.
    + rewrite IH by assumption. apply SetReference_inv_ok in E as [-> _].
      apply lookup_insert_ne. congruence.
    + apply SetReference_inv_err in E as (_ & E & _). simpl. rewrite E. reflexivity.
  - apply not_elem_of_cons in Hk as [Hne Hk]. rewrite IH by assumption.
    destruct (RemoveReference_refs name st) as [[-> | ->] _]; [|reflexivity].
    apply lookup_delete_ne. congruence.
Qed.

Lemma UpdateRepo_range_nofault_refs l st :
  NoDup l.*1 ->
  faults st = [] ->
  (forall k u, (k, Some u) ∈ l -> refs (snd (UpdateRepo_range l st)) !! k = Some (NewID u))
  /\ (forall k, (k, None) ∈ l -> refs (snd (UpdateRepo_range l st)) !! k = None).
Proof.
  revert st. induction l as [|[name [u|]] l IH]; intros st Hnd Hf; simpl in *.
  - split; intros; [inversion_clear H0 | inversion_clear H0].
  - apply NoDup_cons in Hnd as [Hname Hnd].
    unfold bind, SetReference, storer_call. rewrite Hf.
    set (st0 := with_refs _ st).
    destruct (IH st0 Hnd Hf) as [IH1 IH2]. split.
    + intros k u' [[= -> ->]|Hin]%elem_of_cons; [|auto].
      rewrite UpdateRepo_range_frame by assumption. apply lookup_insert_eq.
    + intros k [[=]|Hin]%elem_of_cons. auto.
  - apply NoDup_cons in Hnd as [Hname Hnd].
    unfold RemoveReference, storer_call. rewrite Hf. simpl.
    set (st0 := with_refs _ st).
    destruct (IH st0 Hnd Hf) as [IH1 IH2]. split.
    + intros k u' [[=]|Hin]%elem_of_cons. auto.
    + intros k [[= ->]|Hin]%elem_of_cons; [|auto].
      rewrite UpdateRepo_range_frame by assumption. apply lookup_delete_eq.
Qed.

(** A name the transaction does not hold is as before, whatever the
    outcome. *)
Lemma UpdateRepo_outside tr st k :
  updates tr !! k = None -> refs (snd (UpdateRepo tr st)) !! k = refs st !! k.
Proof.
  intros E. apply UpdateRepo_range_frame.
  intros ([k' v] & -> & Hin)%list_elem_of_fmap.
  apply elem_of_range_order in Hin. simpl in E. congruence.
Qed.

(** The references after a transaction on a store that does not fail. *)
Lemma UpdateRepo_lookup tr st k :
  faults st = [] ->
  refs (snd (UpdateRepo tr st)) !! k
  = match updates tr !! k with
    | Some (Some update) => Some (NewID update)
    | Some None => None
    | None => refs st !! k
    end.
Proof.
  intros Hf.
  destruct (UpdateRepo_range_nofault_refs _ st (range_order_NoDup (updates tr)) Hf) as [Hset Hdel].
  destruct (updates tr !! k) as [[u|]|] eqn:E.
  - apply Hset, elem_of_range_order, E.
  - apply Hdel, elem_of_range_order, E.
  - apply UpdateRepo_outside, E.
Qed.

(** X11: on a store that does not fail [UpdateRepo] succeeds and applies the
    whole transaction, in whatever order [range] yields it: a name with an
    update leads to the new id, a name with a nil update is gone, every
    other name and every object is as before. *)
Theorem UpdateRepo_applies_transaction (tr : RefTransaction) (st : Storer) :
  faults st = [] ->
  fst (UpdateRepo tr st) = Ok tt
  /\ objects (snd (UpdateRepo tr st)) = objects st
  /\ forall k,
       refs (snd (UpdateRepo tr st)) !! k
       = match updates tr !! k with
         | Some (Some update) => Some (NewID update)
         | Some None => None
         | None => refs st !! k
         end.
Proof.
  intros Hf.
  split; [apply UpdateRepo_range_nofault, Hf|].
  split; [apply UpdateRepo_range_objects|].
  intros k. apply UpdateRepo_lookup, Hf.
Qed.

(** X12: whether it succeeds or fails on the way, [UpdateRepo] leaves the
    objects and every reference that the transaction does not name as they
    were. *)
Theorem UpdateRepo_frame (tr : RefTransaction) (st : Storer) :
  objects (snd (UpdateRepo tr st)) = objects st
  /\ forall k, updates tr !! k = None ->
               refs (snd (UpdateRepo tr st)) !! k = refs st !! k.
Proof.
  split; [apply UpdateRepo_range_objects|].
  intros k. apply UpdateRepo_outside.
Qed.

(** X13: applying a transaction a second time changes no reference: on a
    store that does not fail, the second [UpdateRepo] succeeds and leaves
    the references of the first. *)
Theorem UpdateRepo_twice (tr : RefTransaction) (st : Storer) :
  faults st = [] ->
  fst (UpdateRepo tr (snd (UpdateRepo tr st))) = Ok tt
  /\ refs (snd (UpdateRepo tr (snd (UpdateRepo tr st)))) = refs (snd (UpdateRepo tr st)).
Proof.
  intros Hf.
  destruct (UpdateRepo_range_nofault (range_order (updates tr)) st Hf) as [_ Hf1].
  fold (UpdateRepo tr) in Hf1.
  split; [apply UpdateRepo_range_nofault, Hf1|].
  apply map_eq. intros k.
  rewrite (UpdateRepo_lookup tr _ k Hf1), (UpdateRepo_lookup tr st k Hf).
  destruct (updates tr !! k) as [[u|]|]; reflexivity.
Qed.

End UpdateRepoMore.

Lemma UpdateRepo_applies_transaction_witness :
  fst (UpdateRepo tr_mixed st_two_refs) = Ok tt
  /\ objects (snd (UpdateRepo tr_mixed st_two_refs)) = objects st_two_refs
  /\ forall k,
       refs (snd (UpdateRepo tr_mixed st_two_refs)) !! k
       = match updates tr_mixed !! k with
         | Some (Some update) => Some (NewID update)
         | Some None => None
         | None => refs st_two_refs !! k
         end.
Proof. apply (UpdateRepo_applies_transaction tr_mixed st_two_refs). reflexivity. Defined.

Lemma UpdateRepo_twice_witness :
  fst (UpdateRepo tr_mixed (snd (UpdateRepo tr_mixed st_two_refs))) = Ok tt
  /\ refs (snd (UpdateRepo tr_mixed (snd (UpdateRepo tr_mixed st_two_refs))))
     = refs (snd (UpdateRepo tr_mixed st_two_refs)).
Proof. apply (UpdateRepo_twice tr_mixed st_two_refs). reflexivity. Defined.

(** ** What a run does to the store *)

Section RunMore.
Context `{Platform}.

Lemma UpdateRepo_range_keeps l st k :
  (forall k1 v, (k1, v) ∈ l -> is_Some v) ->
  is_Some (refs st !! k) ->
  is_Some (refs (snd (UpdateRepo_range l st)) !! k).
Proof.
  revert st. induction l as [|[name [u|]] l IH]; intros st Hall Hk; simpl.
  - exact Hk.
  - unfold bind. destruct (SetReference name (NewID u) st) as [[[]|e] st1] eqn:E.
    + apply IH; [intros k1 v Hin; apply (Hall k1); right; exact Hin|].
      apply SetReference_inv_ok in E as [-> _].
      rewrite lookup_insert_is_Some. destruct (decide (name = k)); auto.
    + apply SetReference_inv_err in E as (_ & E & _). simpl. rewrite E. exact Hk.
  - destruct (Hall name None) as [u Hu]; [left | discriminate].
Qed.

(** X14: whatever its outcome, a run of [saveAccountDetails] deletes no
    reference, and leaves every reference other than the ledger's and those
    of the accounts handed to it as it was. *)
Theorem saveAccountDetails_frame (now : Z) (infos : list AccountInfo) (st : Storer) :
  let st1 := snd (saveAccountDetails now infos st) in
  (forall k, is_Some (refs st !! k) -> is_Some (refs st1 !! k))
  /\ (forall k, k <> extRefName -> k ∉ uidRefName <$> infos ->
                refs st1 !! k = refs st !! k).
Proof.
  intros st1. subst st1. unfold saveAccountDetails, bind.
  pose proof (keeps_refs_buildTransaction now infos st) as Hrefs.
  destruct (buildTransaction now infos st) as [[tr|e] st2] eqn:Hbuild; simpl in *.
  2: { rewrite Hrefs. auto. }
  split.
  - intros k Hk. apply UpdateRepo_range_keeps; [|rewrite Hrefs; exact Hk].
    intros k1 v Hin. apply elem_of_range_order in Hin.
    eapply buildTransaction_keys; eassumption.
  - intros k Hext Huid.
    rewrite UpdateRepo_outside, Hrefs; [reflexivity|].
    destruct (updates tr !! k) as [v|] eqn:Hk; [|reflexivity].
    destruct (buildTransaction_keys _ _ _ _ _ _ _ Hbuild Hk) as [_ [?|?]]; contradiction.
Qed.

(** X15: with hashes free of collisions, a run of [saveAccountDetails] on a
    store whose objects stand under their own hashes leaves such a store,
    and every object of before is still there, unchanged, whatever the
    outcome of the run. *)
Theorem saveAccountDetails_grows (now : Z) (infos : list AccountInfo) (st : Storer) :
  Inj (=) (=) hashObj ->
  store_wf st ->
  store_wf (snd (saveAccountDetails now infos st))
  /\ objects st ⊆ objects (snd (saveAccountDetails now infos st)).
Proof.
  intros Hinj Hwf. unfold saveAccountDetails, bind.
  pose proof (preserves_buildTransaction grows grows_faults (grows_store Hinj)
                now infos st Hwf) as [Hwf1 Hsub].
  destruct (buildTransaction now infos st) as [[tr|e] st1]; simpl in *; [|auto].
  pose proof (UpdateRepo_range_objects (range_order (updates tr)) st1) as Hobjs.
  fold (UpdateRepo tr) in Hobjs. rewrite Hobjs.
  split; [|exact Hsub]. eapply store_wf_objects; eassumption.
Qed.

End RunMore.

Lemma saveAccountDetails_grows_witness :
  store_wf (snd (saveAccountDetails 2000 [acct7_new_email] after_first_run))
  /\ objects after_first_run
     ⊆ objects (snd (saveAccountDetails 2000 [acct7_new_email] after_first_run)).
Proof.
  apply (saveAccountDetails_grows 2000 [acct7_new_email] after_first_run).
  - exact ideal_hash_inj.
  - exact after_first_run_wf.
Defined.

Section Integrity.
Context `{Platform}.
Hypothesis collision_free : Inj (=) (=) hashObj.

Lemma saveAccount_post s inf acc st res st1 :
  store_wf st ->
  saveAccount s inf acc st = (Ok res, st1) ->
  objects st1 !! hashObj (accountBlob inf) = Some (accountBlob inf)
  /\ objects st1 !! hashObj (accountTree inf) = Some (accountTree inf)
  /\ ((res = acc
       /\ exists h a c m ps,
            refs st !! uidRefName inf = Some h
            /\ objects st1 !! h = Some (CommitObject a c m (hashObj (accountTree inf)) ps))
      \/ (exists parents,
            updates (snd res) !! uidRefName inf
              = Some (Some {| NewID := hashObj (accountCommit s inf parents) |})
            /\ objects st1 !! hashObj (accountCommit s inf parents)
               = Some (accountCommit s inf parents))).
Proof.
  intros Hwf Hrun.
  pose proof (grows_saveAccount collision_free s inf acc st Hwf) as [_ Hsub].
  rewrite Hrun in Hsub. simpl in Hsub.
  unfold saveAccount in Hrun.
  apply bind_inv_ok in Hrun as (bid & st2 & Hblob & Hrun).
  apply bind_inv_ok in Hrun as (tid & st3 & Htree & Hrun).
  apply bind_inv_ok in Hrun as (old & st4 & Hold & Hrun).
  pose proof (grows_SetEncodedObject collision_free (accountBlob inf) st Hwf) as [Hwf2 _].
  unfold SaveConfig, SaveBlob in Hblob. fold (accountBlob inf) in Hblob.
  rewrite Hblob in Hwf2. simpl in Hwf2.
  apply SetEncodedObject_inv_ok in Hblob as (-> & Ho2 & Hr2).
  pose proof (grows_SetEncodedObject collision_free (accountTree inf) st2 Hwf2) as [Hwf3 Hsub3].
  change (SaveTree _) with (SetEncodedObject (accountTree inf)) in Htree.
  rewrite Htree in Hwf3, Hsub3. simpl in Hwf3, Hsub3.
  apply SetEncodedObject_inv_ok in Htree as (-> & Ho3 & Hr3).
  apply referenceCommit_inv in Hold as (Ho4 & Hr4 & Hold).
  rewrite Hr3, Hr2 in Hold.
  assert (store_wf st4) as Hwf4 by (eapply store_wf_objects; eassumption).
  fold (uidRefName inf) in Hrun, Hold.
  assert (objects st4 !! hashObj (accountBlob inf) = Some (accountBlob inf)) as Hb4.
  { rewrite Ho4. eapply lookup_weaken; [|exact Hsub3]. rewrite Ho2. apply lookup_insert_eq. }
  assert (objects st4 !! hashObj (accountTree inf) = Some (accountTree inf)) as Ht4.
  { rewrite Ho4, Ho3. apply lookup_insert_eq. }
  assert (objects st4 ⊆ objects st1) as Hsub41.
  { destruct old as [old|]; [destruct (decide _)|];
      [injection Hrun as _ <-; reflexivity | |];
      (apply bind_inv_ok in Hrun as (cid & st5 & Hc & Hrun);
       apply bind_inv_ok in Hrun as (ne & st6 & He & [= _ <-]);
       unfold SaveCommit in Hc;
       match type of Hc with
       | SetEncodedObject ?o _ = _ =>
           pose proof (grows_SetEncodedObject collision_free o st4 Hwf4) as [Hwf5 Hs5]
       end;
       rewrite Hc in Hwf5, Hs5; simpl in Hwf5, Hs5;
       match type of He with
       | saveExtIDs ?a ?b ?c _ = _ =>
           pose proof (grows_saveExtIDs collision_free a b c st5 Hwf5) as [_ Hs6]
       end;
       rewrite He in Hs6; simpl in Hs6;
       etransitivity; eassumption). }
  split; [eapply lookup_weaken; eassumption|].
  split; [eapply lookup_weaken; eassumption|].
  destruct old as [old|].
  - destruct Hold as [Href Hread]. destruct (decide (TreeHash old = _)) as [Heq|Hne].
    + injection Hrun as <- <-. left. split; [reflexivity|].
      exists (commitHash old), (Author old), (Committer old), (Message old), (ParentHashes old).
      split; [exact Href|]. rewrite Ho4, <- Heq. exact Hread.
    + right. exists [commitHash old]. eapply saveAccount_finish; eassumption.
  - right. exists []. eapply saveAccount_finish; eassumption.
Qed.

Lemma saveAccounts_post s infos acc st res st1 inf :
  store_wf st ->
  saveAccounts s infos acc st = (Ok res, st1) ->
  NoDup (uidRefName <$> infos) ->
  inf ∈ infos ->
  objects st1 !! hashObj (accountBlob inf) = Some (accountBlob inf)
  /\ objects st1 !! hashObj (accountTree inf) = Some (accountTree inf)
  /\ ((updates (snd res) !! uidRefName inf = updates (snd acc) !! uidRefName inf
       /\ exists h a c m ps,
            refs st !! uidRefName inf = Some h
            /\ objects st1 !! h = Some (CommitObject a c m (hashObj (accountTree inf)) ps))
      \/ (exists parents,
            updates (snd res) !! uidRefName inf
              = Some (Some {| NewID := hashObj (accountCommit s inf parents) |})
            /\ objects st1 !! hashObj (accountCommit s inf parents)
               = Some (accountCommit s inf parents))).
Proof.
  revert st acc. induction infos as [|inf0 infos IH]; intros st acc Hwf Hrun Hnd Hin.
  { inversion Hin. }
  simpl in Hrun. apply bind_inv_ok in Hrun as (acc1 & st2 & Hstep & Hrest).
  rewrite fmap_cons in Hnd. apply NoDup_cons in Hnd as [Hname0 Hnd].
  pose proof (grows_saveAccount collision_free s inf0 acc st Hwf) as [Hwf2 Hsub2].
  pose proof (keeps_refs_saveAccount s inf0 acc st) as Hrefs2.
  rewrite Hstep in Hwf2, Hsub2, Hrefs2. simpl in Hwf2, Hsub2, Hrefs2.
  pose proof (grows_saveAccounts collision_free s infos acc1 st2 Hwf2) as [_ Hsub1].
  rewrite Hrest in Hsub1. simpl in Hsub1.
  apply elem_of_cons in Hin as [->|Hin].
  - pose proof (saveAccounts_other_names _ _ _ _ _ _ _ Hrest Hname0) as Hother.
    destruct (saveAccount_post s inf0 acc st acc1 st2 Hwf Hstep) as (Hb & Ht & Hcase).
    split; [eapply lookup_weaken; eassumption|].
    split; [eapply lookup_weaken; eassumption|].
    destruct Hcase as [[-> (h & a & c & m & ps & Href & Hobj)] | (parents & Hu & Ho)].
    + left. split; [exact Hother|]. exists h, a, c, m, ps.
      split; [exact Href | eapply lookup_weaken; eassumption].
    + right. exists parents. split; [rewrite Hother; exact Hu | eapply lookup_weaken; eassumption].
  - assert (uidRefName inf <> uidRefName inf0) as Hne0.
    { intros Heq. apply Hname0. rewrite <- Heq. apply list_elem_of_fmap_2, Hin. }
    pose proof (saveAccount_other_name _ _ _ _ _ _ _ Hstep Hne0) as Hacc1.
    destruct (IH st2 acc1 Hwf2 Hrest Hnd Hin) as (Hb & Ht & Hcase).
    split; [exact Hb|]. split; [exact Ht|].
    rewrite Hrefs2, Hacc1 in Hcase. exact Hcase.
Qed.

(** What a run that succeeded leaves for each account. *)
Lemma saveAccountDetails_post (now : Z) (infos : list AccountInfo)
    (st : Storer) (inf : AccountInfo) :
  store_wf st ->
  fst (saveAccountDetails now infos st) = Ok tt ->
  NoDup (uidRefName <$> infos) ->
  inf ∈ infos ->
  let st1 := snd (saveAccountDetails now infos st) in
  exists h a c m ps,
    refs st1 !! uidRefName inf = Some h
    /\ objects st1 !! h = Some (CommitObject a c m (hashObj (accountTree inf)) ps)
    /\ objects st1 !! hashObj (accountTree inf) = Some (accountTree inf)
    /\ objects st1 !! hashObj (accountBlob inf) = Some (accountBlob inf).
Proof.
  intros Hwf Hok Hnd Hin st1.
  destruct (saveAccountDetails_inv_ok _ _ _ Hok)
    as (oc & st2 & acc & st3 & tr & st4 & Href & Hacc & Hext & Hupd).
  fold st1 in Hupd.
  apply referenceCommit_inv in Href as (Ho2 & Hr2 & _).
  assert (store_wf st2) as Hwf2 by (eapply store_wf_objects; eassumption).
  destruct (saveAccounts_post _ infos _ st2 acc st3 inf Hwf2 Hacc Hnd Hin) as (Hb & Ht & Hcase).
  pose proof (grows_saveAccounts collision_free (newSig now) infos ([], {| updates := ∅ |}) st2 Hwf2)
    as [Hwf3 _].
  rewrite Hacc in Hwf3. simpl in Hwf3.
  pose proof (grows_saveExtCommit collision_free (newSig now) oc acc st3 Hwf3) as [_ Hsub4].
  pose proof (keeps_refs_saveExtCommit (newSig now) oc acc st3) as Hr4.
  pose proof (keeps_refs_saveAccounts (newSig now) infos ([], {| updates := ∅ |}) st2) as Hr3.
  rewrite Hext in Hsub4, Hr4. rewrite Hacc in Hr3. simpl in Hsub4, Hr4, Hr3.
  assert (updates tr !! uidRefName inf = updates (snd acc) !! uidRefName inf) as Htr.
  { apply saveExtCommit_inv_ok in Hext as (t & base & st5 & st6 & _ & _ & _ & ->).
    pose proof (uidRefNameOf_not_ext (AccountID (account inf))) as Hne.
    fold (uidRefName inf) in Hne.
    destruct oc; [destruct (decide _)|]; simpl; try reflexivity;
      apply lookup_insert_ne; congruence. }
  pose proof (UpdateRepo_range_objects (range_order (updates tr)) st4) as Ho1.
  fold (UpdateRepo tr) in Ho1. rewrite Hupd in Ho1. simpl in Ho1.
  destruct (UpdateRepo_ok_lookup _ _ _ (uidRefName inf) Hupd) as [Hset Hkeep].
  assert (forall k o, objects st3 !! k = Some o -> objects st1 !! k = Some o) as Hkeepobj.
  { intros k o Hk. rewrite Ho1. eapply lookup_weaken; eassumption. }
  destruct Hcase as [[Hsame (h & a & c & m & ps & Hrefh & Hobj)] | (parents & Hu & Ho)].
  - exists h, a, c, m, ps. split; [|auto].
    rewrite Hkeep; [rewrite Hr4, Hr3; exact Hrefh|].
    rewrite Htr, Hsame. apply lookup_empty.
  - exists (hashObj (accountCommit (newSig now) inf parents)),
      (newSig now), (newSig now), "update account", parents.
    split; [|split; [apply Hkeepobj, Ho | auto]].
    apply (Hset {| NewID := _ |}). rewrite Htr. exact Hu.
Qed.

(** X16: after a run that succeeded on accounts with distinct reference
    names, the reference of each account leads to a stored commit whose
    tree is the account's tree, and that tree and the blob of the account's
    configuration are stored as well. *)
Theorem account_reference_leads_to_record (now : Z) (infos : list AccountInfo)
    (st : Storer) (inf : AccountInfo) :
  store_wf st ->
  fst (saveAccountDetails now infos st) = Ok tt ->
  NoDup (uidRefName <$> infos) ->
  inf ∈ infos ->
  let st1 := snd (saveAccountDetails now infos st) in
  exists h a c m ps,
    refs st1 !! uidRefName inf = Some h
    /\ objects st1 !! h = Some (CommitObject a c m (hashObj (accountTree inf)) ps)
    /\ objects st1 !! hashObj (accountTree inf) = Some (accountTree inf)
    /\ objects st1 !! hashObj (accountBlob inf) = Some (accountBlob inf).
Proof. apply saveAccountDetails_post. Qed.

End Integrity.

Lemma account_reference_leads_to_record_witness :
  let st1 := snd (saveAccountDetails 2000 [acct7_new_email] after_first_run) in
  exists h a c m ps,
    refs st1 !! uidRefName acct7_new_email = Some h
    /\ objects st1 !! h = Some (CommitObject a c m (hashObj (accountTree acct7_new_email)) ps)
    /\ objects st1 !! hashObj (accountTree acct7_new_email) = Some (accountTree acct7_new_email)
    /\ objects st1 !! hashObj (accountBlob acct7_new_email) = Some (accountBlob acct7_new_email).
Proof.
  apply (account_reference_leads_to_record ideal_hash_inj 2000 [acct7_new_email]
           after_first_run acct7_new_email).
  - exact after_first_run_wf.
  - vm_compute. reflexivity.
  - apply NoDup_singleton.
  - apply list_elem_of_here.
Defined.

(** ** A further run over the same accounts *)

Section Resync.
Context `{Platform}.
Hypothesis collision_free : Inj (=) (=) hashObj.

(** X18: after a run that succeeded on accounts with distinct reference
    names, a further run over the same accounts leaves the reference of
    each of them where it is, whatever the time and the outcome of that
    further run. *)
Theorem resync_keeps_account_reference (now now2 : Z) (infos : list AccountInfo)
    (st : Storer) (inf : AccountInfo) :
  store_wf st ->
  fst (saveAccountDetails now infos st) = Ok tt ->
  NoDup (uidRefName <$> infos) ->
  inf ∈ infos ->
  let st1 := snd (saveAccountDetails now infos st) in
  refs (snd (saveAccountDetails now2 infos st1)) !! uidRefName inf
  = refs st1 !! uidRefName inf.
Proof.
  intros Hwf Hok Hnd Hin st1.
  destruct (saveAccountDetails_post collision_free now infos st inf Hwf Hok Hnd Hin)
    as (h & a & c & m & ps & Href & Hobj & _).
  fold st1 in Href, Hobj.
  assert (store_wf st1) as Hwf1 by (apply saveAccountDetails_wf; assumption).
  unfold saveAccountDetails, bind.
  pose proof (keeps_refs_buildTransaction now2 infos st1) as Hrefs.
  destruct (buildTransaction now2 infos st1) as [[tr|e] st2] eqn:Hbuild; simpl in *.
  2: { rewrite Hrefs. reflexivity. }
  rewrite UpdateRepo_outside, Hrefs; [reflexivity|].
  unfold buildTransaction in Hbuild.
  apply bind_inv_ok in Hbuild as (oc & st3 & Hrc & Hbuild).
  apply bind_inv_ok in Hbuild as (acc & st4 & Hacc & Hext).
  apply referenceCommit_inv in Hrc as (Ho3 & Hr3 & _).
  assert (store_wf st3) as Hwf3 by (eapply store_wf_objects; eassumption).
  destruct (saveAccounts_rule collision_free _ infos _ st3 acc st4 inf Hwf3 Hacc Hnd Hin)
    as [Hsome _].
  rewrite Hr3, Ho3 in Hsome.
  destruct (Hsome _ _ _ _ _ _ Href Hobj) as [Heq _].
  specialize (Heq eq_refl). simpl in Heq. rewrite lookup_empty in Heq.
  apply saveExtCommit_inv_ok in Hext as (t & base & st5 & st6 & _ & _ & _ & ->).
  pose proof (uidRefNameOf_not_ext (AccountID (account inf))) as Hne.
  fold (uidRefName inf) in Hne.
  destruct oc; [destruct (decide _)|]; simpl; try exact Heq;
    rewrite lookup_insert_ne by congruence; exact Heq.
Qed.
End Resync.

Lemma resync_keeps_account_reference_witness :
  let st1 := snd (saveAccountDetails 1000 [acct7] empty_repo) in
  refs (snd (saveAccountDetails 2000 [acct7] st1)) !! uidRefName acct7
  = refs st1 !! uidRefName acct7.
Proof.
  apply (resync_keeps_account_reference ideal_hash_inj 1000 2000 [acct7] empty_repo acct7).
  - exact empty_repo_wf.
  - vm_compute. reflexivity.
  - apply NoDup_singleton.
  - apply list_elem_of_here.
Defined.

(** ** A ledger reference without its commit *)

Section Dangling.
Context `{Platform}.

Lemma Repository_CommitObject_dangling (h : N) (st : Storer) :
  (forall a c m t ps, objects st !! h <> Some (CommitObject a c m t ps)) ->
  exists e, fst (Repository_CommitObject h st) = Err e
            /\ objects (snd (Repository_CommitObject h st)) = objects st
            /\ refs (snd (Repository_CommitObject h st)) = refs st
            /\ (faults st = [] -> e = ErrObjectNotFound).
Proof.
  intros Hobj. unfold Repository_CommitObject, bind, EncodedObject, storer_call.
  destruct (faults st) as [|[] fs]; simpl.
  - destruct (objects st !! h) as [[]|] eqn:Hh; simpl; eauto 6.
    exfalso. eapply Hobj. reflexivity.
  - eexists. repeat split. discriminate.
  - destruct (objects st !! h) as [[]|] eqn:Hh; simpl;
      try (eexists; repeat split; discriminate).
    exfalso. eapply Hobj. reflexivity.
Qed.

Lemma referenceCommit_dangling (h : N) (st : Storer) :
  refs st !! extRefName = Some h ->
  (forall a c m t ps, objects st !! h <> Some (CommitObject a c m t ps)) ->
  exists e, fst (referenceCommit extRefName st) = Err e
            /\ objects (snd (referenceCommit extRefName st)) = objects st
            /\ refs (snd (referenceCommit extRefName st)) = refs st
            /\ (faults st = [] -> e = ErrObjectNotFound).
Proof.
  intros Href Hobj. unfold referenceCommit, Reference, storer_call.
  destruct (faults st) as [|[] fs] eqn:Hf; simpl; rewrite ?Href.
  - destruct (Repository_CommitObject_dangling h st Hobj) as (e & He & Ho & Hr & Hfe).
    unfold bind. destruct (Repository_CommitObject h st) as [[c|e'] st1]; simpl in *;
      [discriminate|]. injection He as ->. eauto 6.
  - eexists. repeat split. discriminate.
  - destruct (Repository_CommitObject_dangling h (with_faults fs st) Hobj)
      as (e & He & Ho & Hr & _).
    unfold bind. destruct (Repository_CommitObject h (with_faults fs st)) as [[c|e'] st1];
      simpl in *; [discriminate|]. injection He as ->.
    exists e. repeat split; [exact Ho | exact Hr | discriminate].
Qed.

(** X17: when the ledger reference is there but leads to no commit in the
    store, [saveAccountDetails] fails before it stores or updates anything:
    objects and references are as before, and on a store that does not
    fail otherwise the error is that the object was not found. *)
Theorem dangling_ledger_reference (now : Z) (infos : list AccountInfo) (st : Storer) (h : N) :
  refs st !! extRefName = Some h ->
  (forall a c m t ps, objects st !! h <> Some (CommitObject a c m t ps)) ->
  objects (snd (saveAccountDetails now infos st)) = objects st
  /\ refs (snd (saveAccountDetails now infos st)) = refs st
  /\ exists e, fst (saveAccountDetails now infos st) = Err e
               /\ (faults st = [] -> e = ErrObjectNotFound).
Proof.
  intros Href Hobj.
  destruct (referenceCommit_dangling h st Href Hobj) as (e & He & Ho & Hr & Hfe).
  destruct (referenceCommit extRefName st) as [r st1] eqn:E. simpl in *. subst r.
  unfold saveAccountDetails, buildTransaction.
  erewrite bind_err; [|erewrite bind_err; [reflexivity | exact E]].
  simpl. eauto 6.
Qed.
End Dangling.

Lemma dangling_ledger_reference_witness :
  objects (snd (saveAccountDetails 1000 [acct7] st_dangling)) = objects st_dangling
  /\ refs (snd (saveAccountDetails 1000 [acct7] st_dangling)) = refs st_dangling
  /\ exists e, fst (saveAccountDetails 1000 [acct7] st_dangling) = Err e
               /\ (faults st_dangling = [] -> e = ErrObjectNotFound).
Proof.
  apply (dangling_ledger_reference 1000 [acct7] st_dangling 5%N).
  - reflexivity.
  - intros a c m t ps. vm_compute. discriminate.
Defined.

(** ** Names of the ledger's entries *)

Lemma be_bytes_length n x : length (SHA1.be_bytes n x) = n.
Proof. induction n as [|n IH]; simpl; [reflexivity | rewrite IH; reflexivity]. Qed.

Lemma be_bytes_range n x : Forall (fun b => 0 <= b < 256) (SHA1.be_bytes n x).
Proof.
  induction n as [|n IH]; simpl; constructor; [|exact IH].
  apply Z.mod_pos_bound. lia.
Qed.

Lemma Sum_bytes msg :
  length (SHA1.Sum msg) = 20%nat /\ Forall (fun b => 0 <= b < 256) (SHA1.Sum msg).
Proof.
  unfold SHA1.Sum.
  destruct (SHA1.blocks _ _ _) as [[[[h0 h1] h2] h3] h4].
  split.
  - rewrite !length_app, !be_bytes_length. reflexivity.
  - repeat (apply Forall_app; split); apply be_bytes_range.
Qed.

Lemma hex_digit_in x : 0 <= x < 16 -> In (SHA1.hex_digit x) hex_digits.
Proof.
  intros Hx.
  assert (forallb (fun n => bool_decide (SHA1.hex_digit (Z.of_nat n) ∈ hex_digits)) (seq 0 16)
          = true) as Hall by (vm_compute; reflexivity).
  rewrite forallb_forall in Hall.
  specialize (Hall (Z.to_nat x)). rewrite Z2Nat.id in Hall by lia.
  apply list_elem_of_In, (bool_decide_eq_true_1 _), Hall, in_seq. lia.
Qed.

Lemma hex_chars bs :
  Forall (fun b => 0 <= b < 256) bs ->
  String.length (SHA1.hex bs) = (2 * length bs)%nat
  /\ Forall (fun c => In c hex_digits) (list_ascii_of_string (SHA1.hex bs)).
Proof.
  unfold SHA1.hex. rewrite list_ascii_of_string_of_list_ascii.
  induction 1 as [|b bs Hb _ [IHlen IHall]]; simpl; [split; [reflexivity | constructor]|].
  split.
  - rewrite IHlen. lia.
  - constructor; [|constructor; [|exact IHall]].
    + apply hex_digit_in. split; [apply Z.div_pos; lia | apply Z.div_lt_upper_bound; lia].
    + apply hex_digit_in. apply Z.mod_pos_bound. lia.
Qed.

(** X19: the entry of an external id in the ledger's tree has a name of 40
    characters, each one of [0123456789abcdef], whatever the identity. *)
Theorem extIDEntry_name_hex (e : AccountExternalIdInfo) (id : N) :
  String.length (entryName (extIDEntry e id)) = 40%nat
  /\ Forall (fun c => In c hex_digits) (list_ascii_of_string (entryName (extIDEntry e id))).
Proof.
  unfold extIDEntry, sha1_hex. simpl.
  destruct (Sum_bytes (SHA1.bytes_of_string (Identity e))) as [Hlen Hrange].
  destruct (hex_chars _ Hrange) as [Hl Hc]. rewrite Hlen in Hl. auto.
Qed.
